(** * gmail-tester: a shallow embedding of [gmail-tester.js]

    The development follows the source file function by function:
    [_get_header], [_init_query], [_get_recent_email], [__check_inbox],
    [check_inbox], [get_messages] and [reply_to_email].

    Modelling conventions.
    - A JavaScript string is the byte string of its UTF-8 encoding (Rocq's
      [string], a list of 8-bit [ascii]), so [Buffer.from(s)] is the identity
      on the bytes of well-formed text.
    - A property that may be [undefined] is an [option]; the truthiness test
      [if (x)] / [!x] on such a string is [truthy].
    - Numbers that the poller adds and compares are integers ([Z]) extended
      with [NaN], which is what [undefined] becomes in arithmetic.
    - The remote collaborators ([gmail.authorize], [gmail.get_recent_email],
      [gmail.get_email_attachments], [users.messages.send]) are a record of
      functions of a logical clock; every effect is recorded in a trace. *)

From Stdlib Require Import ZArith List String Ascii Bool Lia Arith.
From Stdlib Require Import DecimalString DecimalZ ZifyNat.
Import ListNotations.

Local Open Scope string_scope.
Local Open Scope Z_scope.

(* ------------------------------------------------------------------ *)
(** ** JavaScript text primitives *)

Module Js.

(** The double-quote character, and a few others used by the templates. *)
Definition dquote : ascii := ascii_of_nat 34.
Definition space : ascii := " "%char.
Definition newline : ascii := ascii_of_nat 10.

Definition str1 (c : ascii) : string := String c EmptyString.

(** [if (s)] on a value that is a string or [undefined]. *)
Definition truthy (v : option string) : bool :=
  match v with
  | Some s => negb (s =? EmptyString)%string
  | None => false
  end.

(** [a || b] on such values. *)
Definition or_else (a b : option string) : option string :=
  if truthy a then a else b.

(** Conversion to a string, in a template or by [+]. *)
Definition show (v : option string) : string :=
  match v with
  | Some s => s
  | None => "undefined"
  end.

(** Template interpolation [`${n}`] of an integral number. *)
Definition string_of_Z (z : Z) : string := NilZero.string_of_int (Z.to_int z).

(** [Math.round(ms / 1000)]: nearest integer, halves towards +infinity. *)
Definition round_div_1000 (ms : Z) : Z := (ms + 500) / 1000.

(** The UTF-8 encodings of the code points that [String.prototype.trim]
    removes (WhiteSpace and LineTerminator of ECMA-262). *)
Definition bytes (l : list nat) : string :=
  string_of_list_ascii (map ascii_of_nat l).

Definition whitespace : list string :=
  map bytes
    [ [9]; [10]; [11]; [12]; [13]; [32];
      [194; 160];
      [225; 154; 128];
      [226; 128; 128]; [226; 128; 129]; [226; 128; 130]; [226; 128; 131];
      [226; 128; 132]; [226; 128; 133]; [226; 128; 134]; [226; 128; 135];
      [226; 128; 136]; [226; 128; 137]; [226; 128; 138];
      [226; 128; 168]; [226; 128; 169]; [226; 128; 175];
      [226; 129; 159];
      [227; 128; 128];
      [239; 187; 191] ]%nat.

Fixpoint drop (n : nat) (s : string) : string :=
  match n, s with
  | O, _ => s
  | S n', String _ r => drop n' r
  | S _, EmptyString => EmptyString
  end.

Definition leading_whitespace (s : string) : option string :=
  find (fun w => String.prefix w s) whitespace.

Fixpoint trim_start_fuel (fuel : nat) (s : string) : string :=
  match fuel with
  | O => s
  | S f =>
      match leading_whitespace s with
      | Some w => trim_start_fuel f (drop (String.length w) s)
      | None => s
      end
  end.

Definition trimStart (s : string) : string :=
  trim_start_fuel (String.length s) s.

Definition all_whitespace (s : string) : bool :=
  (trimStart s =? EmptyString)%string.

Fixpoint trimEnd (s : string) : string :=
  match s with
  | EmptyString => EmptyString
  | String c r =>
      if all_whitespace s then EmptyString else String c (trimEnd r)
  end.

Definition trim (s : string) : string := trimEnd (trimStart s).

End Js.

(* ------------------------------------------------------------------ *)
(** ** Base64, as [Buffer] writes it (RFC 4648, with padding) *)

Module Base64.

Definition alphabet : string :=
  "ABCDEFGHIJKLMNOPQRSTUVWXYZabcdefghijklmnopqrstuvwxyz0123456789+/".

Definition pad : ascii := "="%char.

(** The character of a 6-bit value. *)
Definition digit (n : nat) : ascii :=
  match String.get n alphabet with
  | Some c => c
  | None => pad
  end.

Fixpoint encode (s : string) : string :=
  match s with
  | EmptyString => EmptyString
  | String a EmptyString =>
      let x := nat_of_ascii a in
      String (digit (x / 4)) (String (digit (x mod 4 * 16))
        (String pad (String pad EmptyString)))
  | String a (String b EmptyString) =>
      let x := nat_of_ascii a in
      let y := nat_of_ascii b in
      String (digit (x / 4)) (String (digit (x mod 4 * 16 + y / 16))
        (String (digit (y mod 16 * 4)) (String pad EmptyString)))
  | String a (String b (String c rest)) =>
      let x := nat_of_ascii a in
      let y := nat_of_ascii b in
      let z := nat_of_ascii c in
      String (digit (x / 4)) (String (digit (x mod 4 * 16 + y / 16))
        (String (digit (y mod 16 * 4 + z / 64)) (String (digit (z mod 64))
          (encode rest))))
  end%nat.

(** [s.replace(/x/g, y)] for single characters. *)
Fixpoint replace (x y : ascii) (s : string) : string :=
  match s with
  | EmptyString => EmptyString
  | String c r => String (if Ascii.eqb c x then y else c) (replace x y r)
  end.

Fixpoint only_padding (s : string) : bool :=
  match s with
  | EmptyString => true
  | String c r => Ascii.eqb c pad && only_padding r
  end.

(** [s.replace(/=+$/, empty)]: the trailing run of padding is removed. *)
Fixpoint strip_padding (s : string) : string :=
  match s with
  | EmptyString => EmptyString
  | String c r => if only_padding s then EmptyString
                  else String c (strip_padding r)
  end.

(** The reader's side: the 6-bit value of a character, ... *)
Fixpoint position (c : ascii) (s : string) : option nat :=
  match s with
  | EmptyString => None
  | String x r =>
      if Ascii.eqb c x then Some O else option_map S (position c r)
  end.

Definition value (c : ascii) : option nat := position c alphabet.

Definition byte1 (d0 d1 : nat) : ascii := ascii_of_nat (d0 * 4 + d1 / 16).
Definition byte2 (d1 d2 : nat) : ascii :=
  ascii_of_nat (d1 mod 16 * 16 + d2 / 4).
Definition byte3 (d2 d3 : nat) : ascii := ascii_of_nat (d2 mod 4 * 64 + d3).

(** ... standard decoding of padded base64, ... *)
Fixpoint decode (s : string) : option string :=
  match s with
  | EmptyString => Some EmptyString
  | String c0 (String c1 (String c2 (String c3 rest))) =>
      if Ascii.eqb c3 pad then
        match rest with
        | EmptyString =>
            if Ascii.eqb c2 pad then
              match value c0, value c1 with
              | Some d0, Some d1 => Some (String (byte1 d0 d1) EmptyString)
              | _, _ => None
              end
            else
              match value c0, value c1, value c2 with
              | Some d0, Some d1, Some d2 =>
                  Some (String (byte1 d0 d1)
                          (String (byte2 d1 d2) EmptyString))
              | _, _, _ => None
              end
        | _ => None
        end
      else
        match value c0, value c1, value c2, value c3, decode rest with
        | Some d0, Some d1, Some d2, Some d3, Some tail =>
            Some (String (byte1 d0 d1) (String (byte2 d1 d2)
                    (String (byte3 d2 d3) tail)))
        | _, _, _, _, _ => None
        end
  | _ => None
  end.

Fixpoint padding (n : nat) : string :=
  match n with
  | O => EmptyString
  | S n' => String pad (padding n')
  end.

(** ... and decoding of the URL-safe form: [-] back to [+], [_] back to
    [/], padding restored to a multiple of four characters. *)
Definition decode_url (s : string) : option string :=
  let s := replace "_" "/" (replace "-" "+" s) in
  decode (s ++ padding ((4 - String.length s mod 4) mod 4)).

End Base64.

(* ------------------------------------------------------------------ *)
(** ** Options, as the callers pass them *)

Record Options := mkOptions {
  to : option string;
  from : option string;
  subject : option string;
  before : option Z;           (* a Date, in milliseconds since the epoch *)
  after : option Z;
  label : option string;
  include_body : bool;
  include_attachments : bool;
  wait_time_sec : option Z;
  max_wait_time_sec : option Z
}.

(** The object [{}]. *)
Definition empty_options : Options :=
  mkOptions None None None None None None false false None None.

(* ------------------------------------------------------------------ *)
(** ** [_init_query] *)

Definition _init_query (options : Options) : string :=
  let query := EmptyString in
  let query :=
    match to options with
    | Some v =>
        if Js.truthy (Some v)
        then query ++ "to:" ++ Js.str1 Js.dquote ++ v ++ Js.str1 Js.dquote ++ " "
        else query
    | None => query
    end in
  let query :=
    match from options with
    | Some v =>
        if Js.truthy (Some v)
        then query ++ "from:" ++ Js.str1 Js.dquote ++ v ++ Js.str1 Js.dquote ++ " "
        else query
    | None => query
    end in
  let query :=
    match subject options with
    | Some v =>
        if Js.truthy (Some v)
        then query ++ "subject:(" ++ v ++ ") "
        else query
    | None => query
    end in
  let query :=
    match after options with
    | Some ms =>
        let after_epoch := Js.round_div_1000 ms in
        query ++ "after:" ++ Js.string_of_Z after_epoch ++ " "
    | None => query
    end in
  let query :=
    match before options with
    | Some ms =>
        let before_epoch := Js.round_div_1000 ms in
        query ++ "before:" ++ Js.string_of_Z before_epoch ++ " "
    | None => query
    end in
  Js.trim query.

(** The clauses the query is made of, one per set field, in the order
    [to], [from], [subject], [after], [before]. A string field is set when
    it holds a non-empty string, a date field when it holds a date. *)
Definition clause_to (v : string) : string :=
  "to:" ++ Js.str1 Js.dquote ++ v ++ Js.str1 Js.dquote.
Definition clause_from (v : string) : string :=
  "from:" ++ Js.str1 Js.dquote ++ v ++ Js.str1 Js.dquote.
Definition clause_subject (v : string) : string :=
  "subject:(" ++ v ++ ")".
Definition clause_after (ms : Z) : string :=
  "after:" ++ Js.string_of_Z (Js.round_div_1000 ms).
Definition clause_before (ms : Z) : string :=
  "before:" ++ Js.string_of_Z (Js.round_div_1000 ms).

Definition clause_of {A} (set : A -> bool) (mk : A -> string) (f : option A)
  : list string :=
  match f with
  | Some v => if set v then [mk v] else []
  | None => []
  end.

Definition nonempty (s : string) : bool := negb (s =? EmptyString)%string.
Definition always {A} (_ : A) : bool := true.

Definition query_clauses (o : Options) : list string :=
  clause_of nonempty clause_to (to o)
  ++ clause_of nonempty clause_from (from o)
  ++ clause_of nonempty clause_subject (subject o)
  ++ clause_of always clause_after (after o)
  ++ clause_of always clause_before (before o).

(* ------------------------------------------------------------------ *)
(** ** Raw messages of the mail service and normalised emails *)

Module Raw.

Record Header := mkHeader { name : string; value : string }.

(** [part.body]: its [size], and its inline base64 [data] when there is one. *)
Record Body := mkBody { size : Z; data : option string }.

(** A MIME part; [parts] is absent on a part that has no [parts] property.
    The top-level [payload] of a message is a part too. *)
#[warnings="-register-all"]
Inductive Part := mkPart {
  mimeType : string;
  body : Body;
  parts : option (list Part)
}.

Record Message := mkMessage {
  headers : list Header;        (* [payload.headers] *)
  payload : Part;
  internalDate : Z;             (* milliseconds since the epoch *)
  threadId : option string
}.

End Raw.

Record Attachment := mkAttachment {
  filename : string;
  att_mimeType : string;
  att_data : string
}.

Module Email.

Record Body := mkBody { html : string; text : string }.

(** The object built for each message. [body] and [attachments] are [None]
    when the property was never assigned; the other properties are always
    there, holding [None] when their value is [undefined]. *)
Record t := mk {
  from : option string;
  subject : option string;
  receiver : option string;
  date : Z;
  threadId : option string;
  messageId : option string;
  body : option Body;
  attachments : option (list Attachment)
}.

End Email.

(* ------------------------------------------------------------------ *)
(** ** Errors, the world and the monad of effects *)

Inductive Error :=
| TypeError (msg : string)       (* raised by the runtime *)
| JsError (msg : string)         (* [new Error(msg)] *)
| RemoteError (code : nat).      (* raised by a collaborator *)

(** A number of the poller: an integer or [NaN]. *)
Inductive Num := Fin (z : Z) | NaN.

(** [undefined] converts to [NaN]. *)
Definition to_number (v : option Z) : Num :=
  match v with Some z => Fin z | None => NaN end.

Definition num_add (a b : Num) : Num :=
  match a, b with Fin x, Fin y => Fin (x + y) | _, _ => NaN end.

Definition num_mul (a b : Num) : Num :=
  match a, b with Fin x, Fin y => Fin (x * y) | _, _ => NaN end.

(** [a >= b]: false as soon as one side is [NaN]. *)
Definition num_ge (a b : Num) : bool :=
  match a, b with Fin x, Fin y => x >=? y | _, _ => false end.

(** What the program asks of the outside, most recent first. *)
Inductive Call :=
| CallAuthorize
| CallSearch (query : string) (label : option string)
| CallAttachments (m : Raw.Message)
| CallSend (raw : string) (threadId : option string)
| CallSleep (ms : Num).

Inductive Log :=
| LogChecking (from to subject : option string)
| LogFound
| LogNotFound (wait_time_sec : option Z)
| LogMaxWait
| LogError (err : Error)
| LogObsolete
| LogMessageId (id : string)
| LogNoMessageId
| LogThreading (id : string)
| LogNoThreading.

Record World := mkWorld { calls : list Call; console : list Log }.

Definition start : World := mkWorld [] [].

(** The module [./gmail] and the Gmail client of [googleapis]: each answer
    may depend on everything that was asked before. A failure is an error
    object of the collaborator, told apart by a code; it is never one of
    the errors this module creates. *)
Class Gmail := {
  authorize : list Call -> option nat;
  get_recent_email :
    list Call -> string -> option string -> nat + list Raw.Message;
  get_email_attachments :
    list Call -> Raw.Message -> nat + list Attachment;
  messages_send : list Call -> string -> option string -> nat + string
}.

(** [Buffer.from(data, "base64").toString("utf8")] of the runtime. *)
Class Node := { base64_to_utf8 : string -> string }.

Inductive Result (A : Type) :=
| Return (a : A) (w : World)
| Throw (e : Error) (w : World)
| Exit (code : Z) (w : World)      (* [process.exit(code)] *)
| OutOfFuel.                        (* the loop is still running *)

Arguments Return {A} a w.
Arguments Throw {A} e w.
Arguments Exit {A} code w.
Arguments OutOfFuel {A}.

Definition M (A : Type) : Type := World -> Result A.

Definition ret {A} (a : A) : M A := fun w => Return a w.
Definition throw {A} (e : Error) : M A := fun w => Throw e w.

Definition bind {A B} (m : M A) (k : A -> M B) : M B :=
  fun w =>
    match m w with
    | Return a w' => k a w'
    | Throw e w' => Throw e w'
    | Exit c w' => Exit c w'
    | OutOfFuel => OutOfFuel
    end.

(** [try { m } catch (err) { handler(err) }] *)
Definition try_catch {A} (m : M A) (handler : Error -> M A) : M A :=
  fun w =>
    match m w with
    | Throw e w' => handler e w'
    | r => r
    end.

Notation "x <- m ;; k" := (bind m (fun x => k))
  (at level 61, m at next level, right associativity).
Notation "m ;;; k" := (bind m (fun _ => k))
  (at level 61, right associativity).

Definition log (l : Log) : M unit :=
  fun w => Return tt (mkWorld (calls w) (l :: console w)).

Definition record (c : Call) (w : World) : World :=
  mkWorld (c :: calls w) (console w).

Definition answer {A} (c : Call) (r : nat + A) : M A :=
  fun w =>
    match r with
    | inl code => Throw (RemoteError code) (record c w)
    | inr a => Return a (record c w)
    end.

(** A value that must not be [undefined] where it is used. *)
Definition defined {A} (v : option A) (msg : string) : M A :=
  match v with Some a => ret a | None => throw (TypeError msg) end.

(* ------------------------------------------------------------------ *)
(** ** [_get_header] *)

Definition _get_header (name : string) (headers : list Raw.Header)
  : option string :=
  let found := find (fun h => (Raw.name h =? name)%string) headers in
  match found with
  | Some h => Some (Raw.value h)       (* [found && found.value] *)
  | None => None
  end.

(* ------------------------------------------------------------------ *)
(** ** [_get_recent_email] *)

(** Number of parts in a tree and in a sequence of trees: the [while] loop
    over the work list shifts one part per iteration, so this many
    iterations empty it. *)
Fixpoint part_size (p : Raw.Part) : nat :=
  match Raw.parts p with
  | Some ps =>
      S ((fix forest (l : list Raw.Part) : nat :=
            match l with
            | [] => O
            | x :: r => (part_size x + forest r)%nat
            end) ps)
  | None => 1%nat
  end.

Definition forest_size (ps : list Raw.Part) : nat :=
  fold_right (fun p n => (part_size p + n)%nat) O ps.

Section Decoder.
Context {node : Node}.

(** [Buffer.from(data, "base64").toString("utf8")]; [Buffer.from] refuses
    [undefined]. *)
Definition buffer_from_base64 (data : option string) : Error + string :=
  match data with
  | Some d => inr (base64_to_utf8 d)
  | None => inl (TypeError "The first argument must be of type string")
  end.

(** Lines 75-91: [while (parts.length) { let part = parts.shift(); ... }].
    [None] when the fuel is used up before the work list is empty. *)
Fixpoint walk_parts (fuel : nat) (parts : list Raw.Part)
    (email_body : Email.Body) {struct fuel} : option (Error + Email.Body) :=
  match parts with
  | [] => Some (inr email_body)
  | part :: parts =>
      match fuel with
      | O => None
      | S fuel' =>
          let parts :=
            match Raw.parts part with
            | Some nested => (parts ++ nested)%list
            | None => parts
            end in
          if (Raw.mimeType part =? "text/plain")%string then
            match buffer_from_base64 (Raw.data (Raw.body part)) with
            | inl e => Some (inl e)
            | inr s =>
                walk_parts fuel' parts
                  (Email.mkBody (Email.html email_body) s)
            end
          else if (Raw.mimeType part =? "text/html")%string then
            match buffer_from_base64 (Raw.data (Raw.body part)) with
            | inl e => Some (inl e)
            | inr s =>
                walk_parts fuel' parts
                  (Email.mkBody s (Email.text email_body))
            end
          else walk_parts fuel' parts email_body
      end
  end.

(** Lines 58-94: the value assigned to [email.body]. *)
Definition extract_body (payload : Raw.Part) : M Email.Body :=
  let email_body := Email.mkBody EmptyString EmptyString in
  let body := Raw.body payload in
  if negb (Raw.size body =? 0) then
    if (Raw.mimeType payload =? "text/html")%string then
      match buffer_from_base64 (Raw.data body) with
      | inl e => throw e
      | inr s => ret (Email.mkBody s (Email.text email_body))
      end
    else
      match buffer_from_base64 (Raw.data body) with
      | inl e => throw e
      | inr s => ret (Email.mkBody (Email.html email_body) s)
      end
  else
    (* [[...gmail_email.payload.parts]] *)
    parts <- defined (Raw.parts payload) "undefined is not iterable" ;;
    match walk_parts (forest_size parts) parts email_body with
    | Some (inr b) => ret b
    | Some (inl e) => throw e
    | None => fun _ => OutOfFuel
    end.

Context {gmail : Gmail}.

(** Lines 46-103: the body of the [for] loop, for one message. *)
Definition normalise (options : Options) (gmail_email : Raw.Message)
  : M Email.t :=
  let hs := Raw.headers gmail_email in
  let email :=
    Email.mk
      (_get_header "From" hs)
      (_get_header "Subject" hs)
      (_get_header "Delivered-To" hs)
      (Raw.internalDate gmail_email)
      (Raw.threadId gmail_email)
      (Js.or_else (_get_header "Message-ID" hs) (_get_header "Message-Id" hs))
      None None in
  email <-
    (if include_body options then
       email_body <- extract_body (Raw.payload gmail_email) ;;
       ret (Email.mk (Email.from email) (Email.subject email)
              (Email.receiver email) (Email.date email) (Email.threadId email)
              (Email.messageId email) (Some email_body)
              (Email.attachments email))
     else ret email) ;;
  if include_attachments options then
    atts <- (fun w =>
               answer (CallAttachments gmail_email)
                 (get_email_attachments (calls w) gmail_email) w) ;;
    ret (Email.mk (Email.from email) (Email.subject email)
           (Email.receiver email) (Email.date email) (Email.threadId email)
           (Email.messageId email) (Email.body email) (Some atts))
  else ret email.

Fixpoint for_each (options : Options) (gmail_emails : list Raw.Message)
    (emails : list Email.t) : M (list Email.t) :=
  match gmail_emails with
  | [] => ret emails
  | gmail_email :: rest =>
      email <- normalise options gmail_email ;;
      for_each options rest (emails ++ [email])%list
  end.

Definition call_authorize : M unit :=
  fun w =>
    match authorize (calls w) with
    | Some code => Throw (RemoteError code) (record CallAuthorize w)
    | None => Return tt (record CallAuthorize w)
    end.

Definition _get_recent_email (options : Options) : M (list Email.t) :=
  let emails := [] in
  let query := _init_query options in
  call_authorize ;;;
  gmail_emails <-
    (fun w =>
       answer (CallSearch query (label options))
         (get_recent_email (calls w) query (label options)) w) ;;
  for_each options gmail_emails emails.

(* ---------------------------------------------------------------- *)
(** ** [__check_inbox], [check_inbox] and [get_messages] *)

(** Lines 116-132: the [do ... while] loop; [fuel] bounds the number of
    iterations that are run. *)
Fixpoint poll (fuel : nat) (options : Options) (done_waiting_time : Num)
  : M (option (list Email.t)) :=
  match fuel with
  | O => fun _ => OutOfFuel
  | S fuel' =>
      let wait_time_sec := wait_time_sec options in
      let max_wait_time_sec := max_wait_time_sec options in
      emails <- _get_recent_email options ;;
      if (0 <? List.length emails)%nat then
        log LogFound ;;;
        ret (Some emails)
      else
        log (LogNotFound wait_time_sec) ;;;
        let done_waiting_time :=
          num_add done_waiting_time (to_number wait_time_sec) in
        if num_ge done_waiting_time (to_number max_wait_time_sec) then
          log LogMaxWait ;;;
          ret None
        else
          (fun w =>
             Return tt
               (record (CallSleep (num_mul (to_number wait_time_sec) (Fin 1000)))
                  w)) ;;;
          poll fuel' options done_waiting_time
  end.

Definition __check_inbox (fuel : nat) (options : Options)
  : M (option (list Email.t)) :=
  try_catch
    (log (LogChecking (from options) (to options) (subject options)) ;;;
     poll fuel options (Fin 0))
    (fun err => log (LogError err) ;;; throw err).

(** What a caller may pass as [options]. *)
Inductive Arg :=
| Omitted                       (* no argument, or [undefined] *)
| NotAnObject                   (* a string, a number, a boolean, ... *)
| Null
| Object (o : Options).

(** The default value of the parameter [options] of [check_inbox]. *)
Definition check_inbox_default : Options :=
  mkOptions None None None None None (Some "INBOX") false false
    (Some 30) (Some 30).

Definition check_inbox (fuel : nat) (options : Arg)
  : M (option (list Email.t)) :=
  match options with
  | Omitted => __check_inbox fuel check_inbox_default
  | NotAnObject => log LogObsolete ;;; (fun w => Exit 1 w)
  | Null => throw (TypeError "Cannot destructure null")
  | Object o => __check_inbox fuel o
  end.

(** [None] is the [undefined] returned after an error was logged. *)
Definition get_messages (options : Options) : M (option (list Email.t)) :=
  try_catch
    (emails <- _get_recent_email options ;; ret (Some emails))
    (fun err => log (LogError err) ;;; ret None).

(* ---------------------------------------------------------------- *)
(** ** [reply_to_email] *)

(** [/^Re:/i.test(s)] *)
Definition starts_with_re (s : string) : bool :=
  match s with
  | String r (String e (String c _)) =>
      (Ascii.eqb r "R" || Ascii.eqb r "r")
      && (Ascii.eqb e "E" || Ascii.eqb e "e")
      && Ascii.eqb c ":"
  | _ => false
  end.

(** Lines 280-283. *)
Definition reply_subject (originalSubject : option string) : string :=
  let replySubject := Js.show originalSubject in
  if negb (starts_with_re replySubject)
  then "Re: " ++ replySubject
  else replySubject.

(** Lines 287-299: the header lines of the reply. *)
Definition header_lines (originalFrom originalSubject : option string)
    (originalMessageId : string) : list string :=
  let messageLines :=
    [ "From: me";
      "To: " ++ Js.show originalFrom;
      "Subject: " ++ reply_subject originalSubject ] in
  if Js.truthy (Some originalMessageId)
  then messageLines
         ++ [ "In-Reply-To: " ++ originalMessageId ]
         ++ [ "References: " ++ originalMessageId ]
  else messageLines.

(** Lines 310-314. *)
Definition encode_message (replyMessage : string) : string :=
  Base64.strip_padding
    (Base64.replace "/" "_"
       (Base64.replace "+" "-" (Base64.encode replyMessage))).

Definition original_message_id (originalEmail : Email.t) : string :=
  Js.show (Js.or_else (Email.messageId originalEmail) (Some EmptyString)).

(** Lines 287-307: the document that is encoded. *)
Definition reply_message (originalEmail : Email.t) (replyContent : string)
  : string :=
  let messageLines :=
    header_lines (Email.from originalEmail) (Email.subject originalEmail)
      (original_message_id originalEmail) in
  let messageLines := (messageLines ++ [EmptyString; replyContent])%list in
  String.concat (Js.str1 Js.newline) messageLines.

Definition not_found : Error :=
  JsError "No email found matching the provided criteria.".
Definition missing_information : Error :=
  JsError "Missing required information from the original email.".

Definition reply_to_email (replyContent : string) (options : Options)
  : M string :=
  emails <- _get_recent_email options ;;
  match emails with
  | [] => throw not_found
  | originalEmail :: _ =>
      let originalFrom := Email.from originalEmail in
      let originalSubject := Email.subject originalEmail in
      let threadId := Email.threadId originalEmail in
      let originalMessageId := original_message_id originalEmail in
      if negb (Js.truthy originalFrom) || negb (Js.truthy originalSubject)
         || negb (Js.truthy threadId)
      then throw missing_information
      else
        (if Js.truthy (Some originalMessageId)
         then log (LogMessageId originalMessageId)
         else log LogNoMessageId) ;;;
        (if Js.truthy (Some originalMessageId)
         then log (LogThreading originalMessageId)
         else log LogNoThreading) ;;;
        let replyMessage := reply_message originalEmail replyContent in
        let encodedMessage := encode_message replyMessage in
        call_authorize ;;;
        (fun w =>
           answer (CallSend encodedMessage threadId)
             (messages_send (calls w) encodedMessage threadId) w)
  end.

End Decoder.

(* ------------------------------------------------------------------ *)
(** ** Predicates on strings used in the statements *)

(** Every byte of the string satisfies [p]. *)
Fixpoint all_chars (p : ascii -> bool) (s : string) : bool :=
  match s with
  | EmptyString => true
  | String c r => p c && all_chars p r
  end.

(** A byte that occurs in the encoding of some white space character. *)
Definition ws_byte (c : ascii) : bool :=
  existsb (fun w => negb (all_chars (fun x => negb (Ascii.eqb x c)) w))
          Js.whitespace.

(** A string is tight when it is not empty and neither its first nor its
    last byte belongs to a white space character. *)
Fixpoint last_char (s : string) : option ascii :=
  match s with
  | EmptyString => None
  | String c EmptyString => Some c
  | String _ r => last_char r
  end.

Definition first_char (s : string) : option ascii :=
  match s with
  | EmptyString => None
  | String c _ => Some c
  end.

Definition solid (o : option ascii) : Prop :=
  exists c, o = Some c /\ ws_byte c = false.

Definition tight (s : string) : Prop :=
  solid (first_char s) /\ solid (last_char s).

Definition digit_or_minus (c : ascii) : bool :=
  existsb (Ascii.eqb c) (list_ascii_of_string "-0123456789").

(** The query as [_init_query] has accumulated it before [trim]: every
    clause followed by one space. *)
Definition with_trailing_spaces (cs : list string) : string :=
  fold_left (fun q c => q ++ c ++ " ")%string cs EmptyString.

(** No white space character starts or ends the string. *)
Definition no_outer_whitespace (q : string) : Prop :=
  forall w rest, In w Js.whitespace ->
    q <> (w ++ rest)%string /\ q <> (rest ++ w)%string.

(** A character of the base64 alphabet. *)
Definition sextet (c : ascii) : bool :=
  match Base64.value c with Some _ => true | None => false end.

(** What the two replacements of [encode_message] make of one character,
    and what the two replacements of [Base64.decode_url] make of it. *)
Definition url_char (c : ascii) : ascii :=
  let c := if Ascii.eqb c "+" then "-"%char else c in
  if Ascii.eqb c "/" then "_"%char else c.

Definition std_char (c : ascii) : ascii :=
  let c := if Ascii.eqb c "-" then "+"%char else c in
  if Ascii.eqb c "_" then "/"%char else c.

Fixpoint map_chars (f : ascii -> ascii) (s : string) : string :=
  match s with
  | EmptyString => EmptyString
  | String c r => String (f c) (map_chars f r)
  end.

(** No [+], [/] or [=] in the string. *)
Definition url_safe (s : string) : bool :=
  all_chars (fun c => negb (Ascii.eqb c "+" || Ascii.eqb c "/"
                            || Ascii.eqb c "=")) s.

(* ------------------------------------------------------------------ *)
(** ** Observations on worlds, and the iterations of the poller *)

Definition logged (l : Log) (w : World) : World :=
  mkWorld (calls w) (l :: console w).

Definition is_search (c : Call) : bool :=
  match c with CallSearch _ _ => true | _ => false end.

(** The delays slept so far, most recent first. *)
Fixpoint sleeps (cs : list Call) : list Num :=
  match cs with
  | [] => []
  | CallSleep ms :: r => ms :: sleeps r
  | _ :: r => sleeps r
  end.

Definition searches (cs : list Call) : nat :=
  List.length (filter is_search cs).

(** Absent or empty: what [!v] tests on a header value or an identifier. *)
Definition missing (v : option string) : Prop := Js.truthy v = false.

Section Iterations.
Context {node : Node} {gmail : Gmail}.

(** [idles options n w d w' d']: from the world [w] with [d] seconds
    accumulated, [n] successive iterations of the loop of [__check_inbox]
    each found an empty batch, added the interval and slept, leaving the
    world [w'] with [d'] seconds accumulated. *)
Inductive idles (options : Options)
  : nat -> World -> Num -> World -> Num -> Prop :=
| idles_O w d : idles options O w d w d
| idles_S n w d w1 w' d' :
    _get_recent_email options w = Return [] w1 ->
    num_ge (num_add d (to_number (wait_time_sec options)))
           (to_number (max_wait_time_sec options)) = false ->
    idles options n
      (record (CallSleep (num_mul (to_number (wait_time_sec options))
                                  (Fin 1000)))
              (logged (LogNotFound (wait_time_sec options)) w1))
      (num_add d (to_number (wait_time_sec options))) w' d' ->
    idles options (S n) w d w' d'.

End Iterations.

(* ------------------------------------------------------------------ *)
(** ** The order in which a MIME tree is visited *)

Definition children (p : Raw.Part) : list Raw.Part :=
  match Raw.parts p with
  | Some nested => nested
  | None => []
  end.

(** The parts in the order in which the work list of [walk_parts] hands
    them out. *)
Fixpoint worklist_order (fuel : nat) (queue : list Raw.Part)
  : list Raw.Part :=
  match queue with
  | [] => []
  | part :: queue =>
      match fuel with
      | O => []
      | S fuel' => part :: worklist_order fuel' (queue ++ children part)
      end
  end.

(** Breadth first, level by level: the given parts, then all their
    children, then all their grandchildren, ... *)
Fixpoint levels (depth : nat) (ps : list Raw.Part) : list Raw.Part :=
  match depth with
  | O => []
  | S depth' =>
      match ps with
      | [] => []
      | _ => ps ++ levels depth' (flat_map children ps)
      end
  end.

Definition breadth_first (ps : list Raw.Part) : list Raw.Part :=
  levels (forest_size ps) ps.

(** [p] occurs in one of the trees, at any depth. *)
Inductive in_forest (p : Raw.Part) : list Raw.Part -> Prop :=
| in_forest_here ps : In p ps -> in_forest p ps
| in_forest_below q ps :
    In q ps -> in_forest p (children q) -> in_forest p ps.

Definition has_type (mime : string) (p : Raw.Part) : bool :=
  (Raw.mimeType p =? mime)%string.

(** The last part of the given type in a sequence of parts. *)
Definition last_of_type (mime : string) (order : list Raw.Part)
  : option Raw.Part :=
  find (has_type mime) (rev order).

Definition is_text (p : Raw.Part) : bool :=
  has_type "text/plain" p || has_type "text/html" p.

Section Decoded.
Context {node : Node}.

(** The decoded inline data of a part, if it is there. *)
Definition decoded (p : Raw.Part) : string :=
  match Raw.data (Raw.body p) with
  | Some d => base64_to_utf8 d
  | None => EmptyString
  end.

Definition decoded_last (mime : string) (order : list Raw.Part) : string :=
  match last_of_type mime order with
  | Some p => decoded p
  | None => EmptyString
  end.

(** What one iteration of [walk_parts] does to [email_body] when the data
    is there. *)
Definition visit (email_body : Email.Body) (part : Raw.Part) : Email.Body :=
  if has_type "text/plain" part
  then Email.mkBody (Email.html email_body) (decoded part)
  else if has_type "text/html" part
  then Email.mkBody (decoded part) (Email.text email_body)
  else email_body.

End Decoded.

(* ------------------------------------------------------------------ *)
(** ** Computations that only talk to the collaborators *)

(** The same result in a world with the console [c]. *)
Definition on_console {A} (c : list Log) (r : Result A) : Result A :=
  match r with
  | Return a w => Return a (mkWorld (calls w) c)
  | Throw e w => Throw e (mkWorld (calls w) c)
  | Exit code w => Exit code (mkWorld (calls w) c)
  | OutOfFuel => OutOfFuel
  end.

(** [m] returns or throws, does not sleep, and neither reads nor writes
    the console. *)
Definition remote_only {A} (m : M A) : Prop :=
  forall cs c,
    (forall c', m (mkWorld cs c') = on_console c' (m (mkWorld cs c)))
    /\ match m (mkWorld cs c) with
       | Return _ w' | Throw _ w' => sleeps (calls w') = sleeps cs
       | Exit _ _ | OutOfFuel => False
       end.

(** The world in which the loop of [__check_inbox] starts. *)
Definition entered (options : Options) (w : World) : World :=
  logged (LogChecking (from options) (to options) (subject options)) w.

(** The world after an iteration that found nothing and slept. *)
Definition slept (options : Options) (w1 : World) : World :=
  record (CallSleep (num_mul (to_number (wait_time_sec options)) (Fin 1000)))
         (logged (LogNotFound (wait_time_sec options)) w1).

(** A mailbox in which nothing ever arrives. *)
Definition empty_mailbox : Gmail :=
  {| authorize := fun _ => None;
     get_recent_email := fun _ _ _ => inr [];
     get_email_attachments := fun _ _ => inr [];
     messages_send := fun _ _ _ => inr "sent" |}.

(* ------------------------------------------------------------------ *)
(** ** What an email owes to the flags and what to the raw message *)

(** [body] and [attachments] are there exactly when their flag is set. *)
Definition optional_fields (options : Options) (e : Email.t) : Prop :=
  (Email.body e <> None <-> include_body options = true)
  /\ (Email.attachments e <> None <-> include_attachments options = true).

(** The other fields come from the raw message alone. *)
Definition fixed_fields (m : Raw.Message) (e : Email.t) : Prop :=
  Email.from e = _get_header "From" (Raw.headers m)
  /\ Email.subject e = _get_header "Subject" (Raw.headers m)
  /\ Email.receiver e = _get_header "Delivered-To" (Raw.headers m)
  /\ Email.date e = Raw.internalDate m
  /\ Email.threadId e = Raw.threadId m
  /\ Email.messageId e
     = Js.or_else (_get_header "Message-ID" (Raw.headers m))
                  (_get_header "Message-Id" (Raw.headers m)).

Section Produced.
Context {node : Node} {gmail : Gmail}.

(** The emails that a public operation hands to its caller or, for
    [reply_to_email], draws its reply target from. *)
Definition produced (options : Options) (emails : list Email.t) : Prop :=
  (exists w w', _get_recent_email options w = Return emails w')
  \/ (exists fuel w w',
        check_inbox fuel (Object options) w = Return (Some emails) w')
  \/ (exists w w', get_messages options w = Return (Some emails) w').

End Produced.

(** Options in which the caller has set filter fields only. *)
Definition filters_only : Options :=
  mkOptions None (Some "shop@example.com") (Some "Order") None None None
    false false None None.

(* ------------------------------------------------------------------ *)
(** ** [refresh_access_token] *)

Module Token.

(** The token object of the token store: the three properties that a
    refresh may replace, and two that it never touches. *)
Record t := mk {
  access_token : option string;
  refresh_token : option string;
  expiry_date : option Z;
  scope : option string;
  token_type : option string
}.

End Token.

(** The answer of [oAuth2Client.refreshToken]; [tokens] is [None] when the
    property is absent. *)
Record RefreshResult := mkRefreshResult { tokens : option Token.t }.

(** The OAuth client that [gmail.authorize] gives, and [JSON.stringify] on
    its answers. The answer to a refresh is [None] when it is [undefined] or
    [null]. *)
Class OAuth2 := {
  refreshToken : list Call -> nat + option RefreshResult;
  stringify : option RefreshResult -> string
}.

(** [if (n)] on a number or [undefined]. *)
Definition truthy_number (v : option Z) : bool :=
  match v with
  | Some z => negb (z =? 0)
  | None => false
  end.

Section Refresh.
Context {gmail : Gmail} {oauth : OAuth2}.

(** Lines 205-229. [stored] is what [tokenStore.get(token)] gives; the
    result is the token handed to [tokenStore.store]. The refresh request
    itself is not listed in [calls], which records the requests of the mail
    operations. *)
Definition refresh_access_token (stored : Token.t) : M Token.t :=
  call_authorize ;;;
  refresh_token_result <-
    (fun w =>
       match refreshToken (calls w) with
       | inl code => Throw (RemoteError code) w
       | inr r => Return r w
       end) ;;
  match refresh_token_result with
  | Some (mkRefreshResult (Some tokens)) =>
      let new_token := stored in
      let new_token :=
        if Js.truthy (Token.access_token tokens)
        then Token.mk (Token.access_token tokens)
               (Token.refresh_token new_token) (Token.expiry_date new_token)
               (Token.scope new_token) (Token.token_type new_token)
        else new_token in
      let new_token :=
        if Js.truthy (Token.refresh_token tokens)
        then Token.mk (Token.access_token new_token)
               (Token.refresh_token tokens) (Token.expiry_date new_token)
               (Token.scope new_token) (Token.token_type new_token)
        else new_token in
      let new_token :=
        if truthy_number (Token.expiry_date tokens)
        then Token.mk (Token.access_token new_token)
               (Token.refresh_token new_token) (Token.expiry_date tokens)
               (Token.scope new_token) (Token.token_type new_token)
        else new_token in
      ret new_token
  | _ =>
      throw (JsError ("Refresh access token failed! Respose: "
                      ++ stringify refresh_token_result))
  end.

End Refresh.

(** An OAuth client whose refresh gives a new access token and expiry date
    but no refresh token. *)
Definition renewing_oauth : OAuth2 :=
  {| refreshToken := fun _ =>
       inr (Some (mkRefreshResult
                    (Some (Token.mk (Some "access-2") None (Some 1700003600000)
                             None None))));
     stringify := fun _ => "{}" |}.

Definition stored_token : Token.t :=
  Token.mk (Some "access-1") (Some "refresh-1") (Some 1700000000000)
    (Some "https://mail.google.com/") (Some "Bearer").

(* ------------------------------------------------------------------ *)
(** ** More observations on worlds *)

Definition is_send (c : Call) : bool :=
  match c with CallSend _ _ => true | _ => false end.

Definition is_authorize (c : Call) : bool :=
  match c with CallAuthorize => true | _ => false end.

Definition is_sleep (c : Call) : bool :=
  match c with CallSleep _ => true | _ => false end.

(** How many calls of a kind were made. *)
Definition count (kind : Call -> bool) (cs : list Call) : nat :=
  List.length (filter kind cs).

(** The world in which a computation ended, if it ended. *)
Definition final {A} (r : Result A) : option World :=
  match r with
  | Return _ w | Throw _ w | Exit _ w => Some w
  | OutOfFuel => None
  end.

(** The characters of base64url: letters, digits, [-] and [_]. *)
Definition url_alphabet (c : ascii) : bool :=
  let n := nat_of_ascii c in
  ((65 <=? n) && (n <=? 90) || (97 <=? n) && (n <=? 122)
   || (48 <=? n) && (n <=? 57) || (n =? 45) || (n =? 95))%nat.

(* ------------------------------------------------------------------ *)
(** ** Test doubles *)

(** A runtime that decodes base64 and base64url text, and gives the empty
    string on anything else. *)
Definition test_node : Node :=
  {| base64_to_utf8 := fun d =>
       match Base64.decode_url d with
       | Some s => s
       | None => EmptyString
       end |}.

(** A mailbox whose first [n] searches find nothing and whose later
    searches find [batch]; authorisation, attachments and sending work. *)
Definition mailbox_after (n : nat) (batch : list Raw.Message) : Gmail :=
  {| authorize := fun _ => None;
     get_recent_email := fun cs _ _ =>
       if (searches cs <? n)%nat then inr [] else inr batch;
     get_email_attachments := fun _ _ => inr [];
     messages_send := fun _ _ _ => inr "sent" |}.

(** A mailbox whose searches fail from the [n]-th on (counting from 0). *)
Definition mailbox_failing (n code : nat) : Gmail :=
  {| authorize := fun _ => None;
     get_recent_email := fun cs _ _ =>
       if (searches cs <? n)%nat then inr [] else inl code;
     get_email_attachments := fun _ _ => inr [];
     messages_send := fun _ _ _ => inr "sent" |}.

Definition text_part (mime data : string) : Raw.Part :=
  Raw.mkPart mime (Raw.mkBody (Z.of_nat (String.length data)) (Some data)) None.

Definition container (mime : string) (ps : list Raw.Part) : Raw.Part :=
  Raw.mkPart mime (Raw.mkBody 0 None) (Some ps).

Definition message_of (hs : list (string * string)) (payload : Raw.Part)
    (thread : option string) : Raw.Message :=
  Raw.mkMessage (map (fun h => Raw.mkHeader (fst h) (snd h)) hs) payload
    1700000000000 thread.

(** An order confirmation with both a plain and an HTML rendering. *)
Definition order_message : Raw.Message :=
  message_of
    [ ("Delivered-To", "me@example.com");
      ("From", "shop@example.com");
      ("Subject", "Order Confirmation");
      ("Message-Id", "<order-1@example.com>") ]
    (container "multipart/mixed"
       [ container "multipart/alternative"
           [ text_part "text/plain" "aGVsbG8=";
             text_part "text/html" "PGI-aGk8L2I-" ] ])
    (Some "thread-1").

(** The same without a subject line. *)
Definition untitled_message : Raw.Message :=
  message_of
    [ ("Delivered-To", "me@example.com");
      ("From", "shop@example.com") ]
    (text_part "text/plain" "aGVsbG8=")
    (Some "thread-2").

(** A message whose payload has an empty body and no [parts]. *)
Definition hollow_message : Raw.Message :=
  message_of
    [ ("From", "shop@example.com"); ("Subject", "Empty") ]
    (Raw.mkPart "text/plain" (Raw.mkBody 0 None) None)
    (Some "thread-3").

Definition polling (wait max : Z) : Options :=
  mkOptions None (Some "shop@example.com") (Some "Order") None None
    (Some "INBOX") false false (Some wait) (Some max).

Definition with_body (o : Options) : Options :=
  mkOptions (to o) (from o) (subject o) (before o) (after o) (label o)
    true (include_attachments o) (wait_time_sec o) (max_wait_time_sec o).

(** A message with an attachment that is a text file: the part has the
    type text/plain and no inline data. *)
Definition attached_text_message : Raw.Message :=
  message_of
    [ ("From", "shop@example.com"); ("Subject", "Invoice") ]
    (container "multipart/mixed"
       [ text_part "text/plain" "aGVsbG8=";
         Raw.mkPart "text/plain" (Raw.mkBody 120 None) None ])
    (Some "thread-4").

(** A message that carries an image only. *)
Definition image_message : Raw.Message :=
  message_of
    [ ("From", "shop@example.com"); ("Subject", "Photo") ]
    (container "multipart/mixed"
       [ container "multipart/related"
           [ Raw.mkPart "image/png" (Raw.mkBody 2048 None) None ] ])
    (Some "thread-5").

(* ================================================================== *)
(** * Properties *)

(** ** Strings *)

Lemma append_nil_r (s : string) : (s ++ EmptyString)%string = s.
Proof. induction s as [|c s IH]; simpl; [reflexivity | now rewrite IH]. Qed.

Lemma append_assoc (a b c : string) :
  ((a ++ b) ++ c)%string = (a ++ (b ++ c))%string.
Proof. induction a as [|x a IH]; simpl; [reflexivity | now rewrite IH]. Qed.

Lemma length_append (a b : string) :
  String.length (a ++ b) = (String.length a + String.length b)%nat.
Proof. induction a as [|x a IH]; simpl; [reflexivity | now rewrite IH]. Qed.

Lemma all_chars_append p a b :
  all_chars p (a ++ b) = all_chars p a && all_chars p b.
Proof.
  induction a as [|x a IH]; simpl; [reflexivity|].
  now rewrite IH, andb_assoc.
Qed.

Lemma prefix_split (w s : string) :
  String.prefix w s = true -> s = (w ++ Js.drop (String.length w) s)%string.
Proof.
  revert s; induction w as [|a w IH]; intros s H; simpl.
  - now destruct s.
  - destruct s as [|b s]; simpl in H; [discriminate|].
    destruct (ascii_dec a b) as [->|]; [|discriminate].
    simpl. f_equal. now apply IH.
Qed.

(** ** [trim] *)

Lemma whitespace_ws_bytes (w : string) :
  In w Js.whitespace -> all_chars ws_byte w = true.
Proof.
  assert (H : forallb (all_chars ws_byte) Js.whitespace = true)
    by (vm_compute; reflexivity).
  rewrite forallb_forall in H. apply H.
Qed.

Lemma leading_whitespace_In s w :
  Js.leading_whitespace s = Some w ->
  In w Js.whitespace /\ String.prefix w s = true.
Proof. unfold Js.leading_whitespace. intros H. now apply find_some in H. Qed.

Lemma whitespace_nonempty (w : string) :
  In w Js.whitespace -> w <> EmptyString.
Proof.
  assert (H : forallb (fun w => negb (w =? EmptyString)%string) Js.whitespace
              = true) by (vm_compute; reflexivity).
  rewrite forallb_forall in H. intros Hin ->.
  specialize (H _ Hin). discriminate H.
Qed.

Lemma leading_whitespace_first c r :
  ws_byte c = false -> Js.leading_whitespace (String c r) = None.
Proof.
  intros Hc. destruct (Js.leading_whitespace (String c r)) as [w|] eqn:E;
    [exfalso | reflexivity].
  apply leading_whitespace_In in E as [Hin Hp].
  pose proof (whitespace_ws_bytes _ Hin) as Hw.
  pose proof (whitespace_nonempty _ Hin) as Hne.
  destruct w as [|a w]; [congruence|].
  simpl in Hp. destruct (ascii_dec a c) as [->|]; [|discriminate].
  simpl in Hw. rewrite Hc in Hw. discriminate.
Qed.

Lemma trim_start_fuel_all_ws fuel s :
  Js.trim_start_fuel fuel s = EmptyString -> all_chars ws_byte s = true.
Proof.
  revert s; induction fuel as [|f IH]; intros s H; simpl in H.
  - now subst.
  - destruct (Js.leading_whitespace s) as [w|] eqn:E; [|now subst].
    apply leading_whitespace_In in E as [Hin Hp].
    rewrite (prefix_split _ _ Hp), all_chars_append.
    rewrite (whitespace_ws_bytes _ Hin), (IH _ H). reflexivity.
Qed.

Lemma all_whitespace_bytes s :
  Js.all_whitespace s = true -> all_chars ws_byte s = true.
Proof.
  unfold Js.all_whitespace, Js.trimStart. intros H.
  apply String.eqb_eq in H. eapply trim_start_fuel_all_ws; eassumption.
Qed.

Lemma last_char_append a b :
  b <> EmptyString -> last_char (a ++ b) = last_char b.
Proof.
  intros Hb. induction a as [|x a IH]; simpl; [reflexivity|].
  rewrite <- IH. destruct (a ++ b)%string eqn:E; [|reflexivity].
  destruct a; simpl in E; [congruence | discriminate].
Qed.

Lemma first_char_append a b :
  a <> EmptyString -> first_char (a ++ b) = first_char a.
Proof. destruct a; [congruence | reflexivity]. Qed.

Lemma solid_nonempty s : solid (last_char s) -> s <> EmptyString.
Proof. intros (c & H & _) ->. discriminate. Qed.

Lemma last_char_all_chars p s c :
  last_char s = Some c -> all_chars p s = true -> p c = true.
Proof.
  induction s as [|x s IH]; simpl; [discriminate|].
  intros H Hall. apply andb_prop in Hall as [Hx Hs].
  destruct s; [injection H as <-; exact Hx | now apply IH].
Qed.

Lemma trimStart_solid s : solid (first_char s) -> Js.trimStart s = s.
Proof.
  intros (c & Hf & Hc). destruct s as [|x r]; [discriminate|].
  injection Hf as ->. unfold Js.trimStart. simpl Js.trim_start_fuel.
  now rewrite (leading_whitespace_first _ r Hc).
Qed.

Lemma trimEnd_solid s :
  solid (last_char s) ->
  Js.trimEnd (s ++ Js.str1 Js.space) = s.
Proof.
  intros (c & Hl & Hc).
  induction s as [|x s IH]; [discriminate|].
  change (Js.trimEnd (String x s ++ Js.str1 Js.space))
    with (if Js.all_whitespace (String x s ++ Js.str1 Js.space)
          then EmptyString
          else String x (Js.trimEnd (s ++ Js.str1 Js.space))).
  destruct (Js.all_whitespace (String x s ++ Js.str1 Js.space)) eqn:E.
  - apply all_whitespace_bytes in E. rewrite all_chars_append in E.
    apply andb_prop in E as [E _].
    rewrite (last_char_all_chars _ _ _ Hl E) in Hc. discriminate.
  - f_equal. destruct s as [|y s]; [reflexivity|].
    apply IH. exact Hl.
Qed.

Lemma trim_tight s : tight s -> Js.trim (s ++ Js.str1 Js.space) = s.
Proof.
  intros [Hf Hl]. unfold Js.trim.
  rewrite trimStart_solid.
  - now apply trimEnd_solid.
  - rewrite first_char_append; [exact Hf|].
    destruct Hf as (c & Hf & _). intros ->. discriminate.
Qed.

(** ** [_init_query] *)

Lemma fold_trailing_spaces cs q :
  fold_left (fun q c => q ++ c ++ " ")%string cs q
  = (q ++ with_trailing_spaces cs)%string.
Proof.
  unfold with_trailing_spaces. revert q.
  induction cs as [|c cs IH]; intros q; simpl.
  - now rewrite append_nil_r.
  - rewrite IH, (IH (c ++ " ")%string), append_assoc. reflexivity.
Qed.

Lemma with_trailing_spaces_concat cs :
  cs <> [] ->
  with_trailing_spaces cs = (String.concat " " cs ++ " ")%string.
Proof.
  induction cs as [|c cs IH]; [congruence|]. intros _.
  unfold with_trailing_spaces. simpl fold_left.
  rewrite fold_trailing_spaces.
  destruct cs as [|d cs].
  - simpl. now rewrite append_nil_r.
  - rewrite IH by discriminate.
    change (String.concat " " (c :: d :: cs))
      with (c ++ " " ++ String.concat " " (d :: cs))%string.
    now rewrite !append_assoc.
Qed.

Lemma tight_concat cs :
  cs <> [] -> Forall tight cs -> tight (String.concat " " cs).
Proof.
  induction cs as [|c cs IH]; [congruence|]. intros _ H.
  inversion H as [|? ? Hc Hcs]; subst.
  destruct cs as [|d cs]; [exact Hc|].
  change (String.concat " " (c :: d :: cs))
    with (c ++ " " ++ String.concat " " (d :: cs))%string.
  specialize (IH ltac:(discriminate) Hcs). destruct Hc as [Hf _], IH as [_ Hl].
  split.
  - rewrite first_char_append; [exact Hf|].
    destruct Hf as (x & Hx & _). intros ->. discriminate.
  - rewrite !last_char_append; [exact Hl | now apply solid_nonempty |].
    simpl. discriminate.
Qed.

Lemma digit_or_minus_solid c : digit_or_minus c = true -> ws_byte c = false.
Proof.
  destruct c as [[|] [|] [|] [|] [|] [|] [|] [|]];
    vm_compute; congruence.
Qed.

Lemma string_of_uint_digits d :
  all_chars digit_or_minus (NilEmpty.string_of_uint d) = true.
Proof. induction d; simpl; auto. Qed.

Lemma string_of_Z_digits z :
  all_chars digit_or_minus (Js.string_of_Z z) = true
  /\ Js.string_of_Z z <> EmptyString.
Proof.
  unfold Js.string_of_Z.
  destruct (Z.to_int z) as [d|d]; simpl.
  - destruct d; simpl; try (split; [|discriminate]); auto;
      apply string_of_uint_digits.
  - split; [|discriminate].
    destruct d; simpl; auto; apply string_of_uint_digits.
Qed.

Lemma last_char_some s : s <> EmptyString -> exists c, last_char s = Some c.
Proof.
  induction s as [|x s IH]; [congruence|]. intros _.
  destruct s as [|y s]; [now exists x|].
  apply IH. discriminate.
Qed.

Lemma string_of_Z_solid z : solid (last_char (Js.string_of_Z z)).
Proof.
  destruct (string_of_Z_digits z) as [Hall Hne].
  destruct (last_char_some _ Hne) as [c Hc].
  exists c. split; [exact Hc|].
  apply digit_or_minus_solid. eapply last_char_all_chars; eassumption.
Qed.

Lemma last_char_snoc a c : last_char (a ++ String c EmptyString) = Some c.
Proof. rewrite last_char_append; [reflexivity | discriminate]. Qed.

Lemma solid_char c : ws_byte c = false -> solid (Some c).
Proof. intros H. now exists c. Qed.

Lemma tight_clause_to v : tight (clause_to v).
Proof.
  split; [apply solid_char; vm_compute; reflexivity|].
  unfold clause_to, Js.str1. rewrite <- !append_assoc, last_char_snoc.
  apply solid_char. vm_compute. reflexivity.
Qed.

Lemma tight_clause_from v : tight (clause_from v).
Proof.
  split; [apply solid_char; vm_compute; reflexivity|].
  unfold clause_from, Js.str1. rewrite <- !append_assoc, last_char_snoc.
  apply solid_char. vm_compute. reflexivity.
Qed.

Lemma tight_clause_subject v : tight (clause_subject v).
Proof.
  split; [apply solid_char; vm_compute; reflexivity|].
  unfold clause_subject, Js.str1. rewrite <- !append_assoc, last_char_snoc.
  apply solid_char. vm_compute. reflexivity.
Qed.

Lemma tight_clause_after ms : tight (clause_after ms).
Proof.
  split; [apply solid_char; vm_compute; reflexivity|].
  unfold clause_after.
  rewrite last_char_append by apply string_of_Z_digits.
  apply string_of_Z_solid.
Qed.

Lemma tight_clause_before ms : tight (clause_before ms).
Proof.
  split; [apply solid_char; vm_compute; reflexivity|].
  unfold clause_before.
  rewrite last_char_append by apply string_of_Z_digits.
  apply string_of_Z_solid.
Qed.

Lemma tight_clause_of {A} set mk (f : option A) :
  (forall v, tight (mk v)) -> Forall tight (clause_of set mk f).
Proof.
  intros H. destruct f as [v|]; simpl; [|constructor].
  destruct (set v); [constructor; [apply H | constructor] | constructor].
Qed.

Lemma query_clauses_tight o : Forall tight (query_clauses o).
Proof.
  unfold query_clauses. repeat (apply Forall_app; split);
    apply tight_clause_of;
    auto using tight_clause_to, tight_clause_from, tight_clause_subject,
      tight_clause_after, tight_clause_before.
Qed.

Lemma init_query_accumulates o :
  _init_query o = Js.trim (with_trailing_spaces (query_clauses o)).
Proof.
  unfold _init_query, query_clauses, with_trailing_spaces, clause_of,
    nonempty, always, Js.truthy.
  destruct o as [t f s b a l ib ia w m]; cbn [to from subject before after].
  f_equal.
  destruct t as [t|], f as [f|], s as [s|], a as [a|], b as [b|];
  repeat match goal with
         | |- context [(?x =? EmptyString)%string] =>
             destruct (x =? EmptyString)%string
         end;
  cbn [negb app fold_left];
  unfold clause_to, clause_from, clause_subject, clause_after, clause_before;
  rewrite ?append_assoc; reflexivity.
Qed.


Lemma whitespace_first_char w rest :
  In w Js.whitespace ->
  exists c, first_char (w ++ rest) = Some c /\ ws_byte c = true.
Proof.
  intros Hin. pose proof (whitespace_ws_bytes _ Hin) as Hw.
  pose proof (whitespace_nonempty _ Hin) as Hne.
  destruct w as [|a w]; [congruence|]. simpl in *.
  apply andb_prop in Hw as [Ha _]. now exists a.
Qed.

Lemma whitespace_last_char w rest :
  In w Js.whitespace ->
  exists c, last_char (rest ++ w) = Some c /\ ws_byte c = true.
Proof.
  intros Hin. pose proof (whitespace_ws_bytes _ Hin) as Hw.
  pose proof (whitespace_nonempty _ Hin) as Hne.
  rewrite last_char_append by exact Hne.
  destruct (last_char_some _ Hne) as [c Hc]. exists c. split; [exact Hc|].
  eapply last_char_all_chars; eassumption.
Qed.

Lemma tight_no_outer_whitespace q : tight q -> no_outer_whitespace q.
Proof.
  intros [(a & Ha & Hsa) (z & Hz & Hsz)] w rest Hin. split; intros ->.
  - destruct (whitespace_first_char w rest Hin) as (c & Hc & Hws). congruence.
  - destruct (whitespace_last_char w rest Hin) as (c & Hc & Hws). congruence.
Qed.

Lemma empty_no_outer_whitespace : no_outer_whitespace EmptyString.
Proof.
  intros w rest Hin. pose proof (whitespace_nonempty _ Hin) as Hne.
  split; intros H; symmetry in H.
  - destruct w; [congruence | discriminate].
  - destruct rest; simpl in H; [congruence | discriminate].
Qed.

Lemma round_div_1000_nearest ms e :
  1000 * e - 500 <= ms < 1000 * e + 500 -> Js.round_div_1000 ms = e.
Proof.
  intros H. unfold Js.round_div_1000. symmetry.
  apply (Z.div_unique (ms + 500) 1000 e (ms + 500 - 1000 * e)); lia.
Qed.

Lemma string_of_Z_reads_back e :
  option_map Z.of_int (NilZero.int_of_string (Js.string_of_Z e)) = Some e.
Proof.
  unfold Js.string_of_Z.
  assert (Hpos : Z.to_int e <> Decimal.Pos Decimal.Nil).
  { intros H. pose proof (DecimalZ.of_to e) as Hz. rewrite H in Hz.
    cbn in Hz. subst e. discriminate H. }
  assert (Hneg : Z.to_int e <> Decimal.Neg Decimal.Nil).
  { intros H. pose proof (DecimalZ.of_to e) as Hz. rewrite H in Hz.
    cbn in Hz. subst e. discriminate H. }
  rewrite (NilZero.isi _ Hpos Hneg). cbn [option_map].
  now rewrite DecimalZ.of_to.
Qed.

(** C2. For every options record, [_init_query] returns exactly the clauses
    of the set fields, in the order to, from, subject, after, before, each
    in its format ([to:"..."], [from:"..."], [subject:(...)], [after:<epoch>],
    [before:<epoch>]), separated by single spaces, with no white space at
    either end; the empty record gives the empty string. The epoch of a date
    clause is the whole number of seconds nearest to the date (a date half
    way between two seconds goes up), written in decimal: for the integer
    [e] with [1000 e - 500 <= ms < 1000 e + 500] the clause is [after:] or
    [before:] followed by the numeral that reads back as [e]. *)
Theorem init_query_exact_clauses (o : Options) :
  _init_query o = String.concat " " (query_clauses o)
  /\ no_outer_whitespace (_init_query o)
  /\ _init_query empty_options = EmptyString
  /\ (forall ms e,
        1000 * e - 500 <= ms < 1000 * e + 500 ->
        clause_after ms = ("after:" ++ Js.string_of_Z e)%string
        /\ clause_before ms = ("before:" ++ Js.string_of_Z e)%string
        /\ (after o = Some ms ->
            In ("after:" ++ Js.string_of_Z e)%string (query_clauses o))
        /\ (before o = Some ms ->
            In ("before:" ++ Js.string_of_Z e)%string (query_clauses o)))
  /\ (forall e,
        option_map Z.of_int (NilZero.int_of_string (Js.string_of_Z e))
        = Some e).
Proof.
  assert (E : _init_query o = String.concat " " (query_clauses o)).
  { rewrite init_query_accumulates.
    destruct (query_clauses o) as [|c cs] eqn:Hcs; [reflexivity|].
    rewrite with_trailing_spaces_concat by discriminate.
    apply trim_tight, tight_concat; [discriminate|].
    rewrite <- Hcs. apply query_clauses_tight. }
  split; [exact E|]. split; [|split; [reflexivity|split]].
  - rewrite E. destruct (query_clauses o) as [|c cs] eqn:Hcs.
    + apply empty_no_outer_whitespace.
    + apply tight_no_outer_whitespace, tight_concat; [discriminate|].
      rewrite <- Hcs. apply query_clauses_tight.
  - intros ms e Hnear.
    assert (Ha : clause_after ms = ("after:" ++ Js.string_of_Z e)%string)
      by (unfold clause_after; now rewrite (round_div_1000_nearest ms e)).
    assert (Hb : clause_before ms = ("before:" ++ Js.string_of_Z e)%string)
      by (unfold clause_before; now rewrite (round_div_1000_nearest ms e)).
    split; [exact Ha|]. split; [exact Hb|].
    unfold query_clauses. split; intros Hset; rewrite Hset;
      cbn [clause_of always]; rewrite ?in_app_iff.
    + rewrite Ha. right. right. right. left. now left.
    + rewrite Hb. right. right. right. right. now left.
  - apply string_of_Z_reads_back.
Qed.

(** ** Base64 *)

(** Divisions and remainders by constants are left to [lia]. *)
Ltac Zify.zify_post_hook ::= Z.to_euclidean_division_equations.

Lemma by_triples (P : string -> Prop) :
  P EmptyString ->
  (forall a, P (String a EmptyString)) ->
  (forall a b, P (String a (String b EmptyString))) ->
  (forall a b c r, P r -> P (String a (String b (String c r)))) ->
  forall s, P s.
Proof.
  intros H0 H1 H2 H3 s.
  enough (H : P s /\ (forall a, P (String a s))
              /\ (forall a b, P (String a (String b s)))) by apply H.
  induction s as [|c r (IH0 & IH1 & IH2)]; repeat split; auto.
Qed.

Lemma digit_table n :
  (n < 64)%nat ->
  Base64.value (Base64.digit n) = Some n
  /\ Ascii.eqb (Base64.digit n) Base64.pad = false
  /\ Ascii.eqb (url_char (Base64.digit n)) Base64.pad = false
  /\ std_char (url_char (Base64.digit n)) = Base64.digit n
  /\ url_safe (Js.str1 (url_char (Base64.digit n))) = true.
Proof.
  intros Hn.
  assert (H : forallb
                (fun n =>
                   match Base64.value (Base64.digit n) with
                   | Some m => Nat.eqb m n
                   | None => false
                   end
                   && negb (Ascii.eqb (Base64.digit n) Base64.pad)
                   && negb (Ascii.eqb (url_char (Base64.digit n)) Base64.pad)
                   && Ascii.eqb (std_char (url_char (Base64.digit n)))
                        (Base64.digit n)
                   && url_safe (Js.str1 (url_char (Base64.digit n))))
                (seq 0 64) = true) by (vm_compute; reflexivity).
  rewrite forallb_forall in H.
  specialize (H n ltac:(apply in_seq; lia)).
  repeat (apply andb_prop in H as [H ?]).
  destruct (Base64.value (Base64.digit n)) as [m|]; [|discriminate].
  apply Nat.eqb_eq in H. subst m.
  repeat split; auto.
  - now apply negb_true_iff.
  - now apply negb_true_iff.
  - now apply Ascii.eqb_eq.
Qed.

Lemma nat_of_ascii_bound a : (nat_of_ascii a < 256)%nat.
Proof.
  destruct a as [[|] [|] [|] [|] [|] [|] [|] [|]]; vm_compute; lia.
Qed.

Lemma decode_encode s : Base64.decode (Base64.encode s) = Some s.
Proof.
  induction s as [ | a | a b | a b c r IH] using by_triples.
  - reflexivity.
  - cbn [Base64.encode].
    set (x := nat_of_ascii a).
    assert (Hx : (x < 256)%nat) by apply nat_of_ascii_bound.
    destruct (digit_table (x / 4)%nat ltac:(lia)) as (V0 & _).
    destruct (digit_table (x mod 4 * 16)%nat ltac:(lia)) as (V1 & _).
    cbn [Base64.decode]. rewrite !Ascii.eqb_refl, V0, V1.
    unfold Base64.byte1.
    replace (x / 4 * 4 + x mod 4 * 16 / 16)%nat with x by lia.
    unfold x. now rewrite ascii_nat_embedding.
  - cbn [Base64.encode].
    set (x := nat_of_ascii a). set (y := nat_of_ascii b).
    assert (Hx : (x < 256)%nat) by apply nat_of_ascii_bound.
    assert (Hy : (y < 256)%nat) by apply nat_of_ascii_bound.
    destruct (digit_table (x / 4)%nat ltac:(lia)) as (V0 & _).
    destruct (digit_table (x mod 4 * 16 + y / 16)%nat ltac:(lia)) as (V1 & _).
    destruct (digit_table (y mod 16 * 4)%nat ltac:(lia)) as (V2 & P2 & _).
    cbn [Base64.decode]. rewrite !Ascii.eqb_refl, P2, V0, V1, V2.
    unfold Base64.byte1, Base64.byte2.
    replace (x / 4 * 4 + (x mod 4 * 16 + y / 16) / 16)%nat with x by lia.
    replace ((x mod 4 * 16 + y / 16) mod 16 * 16 + y mod 16 * 4 / 4)%nat
      with y by lia.
    unfold x, y. now rewrite !ascii_nat_embedding.
  - cbn [Base64.encode].
    set (x := nat_of_ascii a). set (y := nat_of_ascii b).
    set (z := nat_of_ascii c).
    assert (Hx : (x < 256)%nat) by apply nat_of_ascii_bound.
    assert (Hy : (y < 256)%nat) by apply nat_of_ascii_bound.
    assert (Hz : (z < 256)%nat) by apply nat_of_ascii_bound.
    destruct (digit_table (x / 4)%nat ltac:(lia)) as (V0 & _).
    destruct (digit_table (x mod 4 * 16 + y / 16)%nat ltac:(lia)) as (V1 & _).
    destruct (digit_table (y mod 16 * 4 + z / 64)%nat ltac:(lia)) as (V2 & _).
    destruct (digit_table (z mod 64)%nat ltac:(lia)) as (V3 & P3 & _).
    cbn [Base64.decode]. fold Base64.decode. rewrite P3, V0, V1, V2, V3, IH.
    unfold Base64.byte1, Base64.byte2, Base64.byte3.
    replace (x / 4 * 4 + (x mod 4 * 16 + y / 16) / 16)%nat with x by lia.
    replace ((x mod 4 * 16 + y / 16) mod 16 * 16
             + (y mod 16 * 4 + z / 64) / 4)%nat with y by lia.
    replace ((y mod 16 * 4 + z / 64) mod 4 * 64 + z mod 64)%nat with z by lia.
    unfold x, y, z. now rewrite !ascii_nat_embedding.
Qed.


Lemma position_get c s n :
  Base64.position c s = Some n -> String.get n s = Some c.
Proof.
  revert n; induction s as [|x r IH]; intros n; simpl; [discriminate|].
  destruct (Ascii.eqb_spec c x) as [->|Hne].
  - now intros [= <-].
  - destruct (Base64.position c r) as [m|]; simpl; [|discriminate].
    intros [= <-]. now apply IH.
Qed.

Lemma get_length s n c :
  String.get n s = Some c -> (n < String.length s)%nat.
Proof.
  revert n; induction s as [|x r IH]; intros n; simpl; [discriminate|].
  destruct n as [|n]; [lia|]. intros H. apply IH in H. lia.
Qed.

Lemma sextet_digit c :
  sextet c = true -> exists n, (n < 64)%nat /\ c = Base64.digit n.
Proof.
  unfold sextet, Base64.value.
  destruct (Base64.position c Base64.alphabet) as [n|] eqn:E; [|discriminate].
  intros _. apply position_get in E. exists n. split.
  - apply get_length in E. exact E.
  - unfold Base64.digit. now rewrite E.
Qed.

Lemma digit_sextet n : (n < 64)%nat -> sextet (Base64.digit n) = true.
Proof.
  intros Hn. unfold sextet.
  destruct (digit_table n Hn) as (-> & _). reflexivity.
Qed.

Lemma padding_length k : String.length (Base64.padding k) = k.
Proof. induction k; simpl; congruence. Qed.

(** The encoding is a run of alphabet characters followed by at most two
    padding characters, four characters for every three bytes. *)
Lemma encode_shape s :
  exists body k,
    Base64.encode s = (body ++ Base64.padding k)%string
    /\ all_chars sextet body = true
    /\ (k <= 2)%nat
    /\ ((String.length body + k) mod 4 = 0)%nat.
Proof.
  induction s as [ | a | a b | a b c r IH] using by_triples.
  - exists EmptyString, 0%nat. repeat split; auto.
  - pose proof (nat_of_ascii_bound a). cbn [Base64.encode].
    eexists (String _ (String _ EmptyString)), 2%nat.
    split; [reflexivity|]. cbn [all_chars].
    rewrite !digit_sextet by lia. repeat split; auto.
  - pose proof (nat_of_ascii_bound a). pose proof (nat_of_ascii_bound b).
    cbn [Base64.encode].
    eexists (String _ (String _ (String _ EmptyString))), 1%nat.
    split; [reflexivity|]. cbn [all_chars].
    rewrite !digit_sextet by lia. repeat split; auto.
  - pose proof (nat_of_ascii_bound a). pose proof (nat_of_ascii_bound b).
    pose proof (nat_of_ascii_bound c).
    destruct IH as (body & k & E & Hall & Hk & Hlen).
    change (Base64.encode (String a (String b (String c r))))
      with (String (Base64.digit (nat_of_ascii a / 4))
              (String (Base64.digit (nat_of_ascii a mod 4 * 16
                                     + nat_of_ascii b / 16))
                 (String (Base64.digit (nat_of_ascii b mod 16 * 4
                                        + nat_of_ascii c / 64))
                    (String (Base64.digit (nat_of_ascii c mod 64))
                       (Base64.encode r))))).
    rewrite E.
    eexists (String _ (String _ (String _ (String _ body)))), k.
    split; [reflexivity|]. cbn [all_chars String.length].
    rewrite !digit_sextet by lia. rewrite Hall. repeat split; auto. lia.
Qed.

Lemma replace_map x y s :
  Base64.replace x y s = map_chars (fun c => if Ascii.eqb c x then y else c) s.
Proof. induction s as [|c r IH]; simpl; [reflexivity | now rewrite IH]. Qed.

Lemma map_chars_compose f g s :
  map_chars g (map_chars f s) = map_chars (fun c => g (f c)) s.
Proof. induction s as [|c r IH]; simpl; [reflexivity | now rewrite IH]. Qed.

Lemma map_chars_append f a b :
  map_chars f (a ++ b) = (map_chars f a ++ map_chars f b)%string.
Proof. induction a as [|c r IH]; simpl; [reflexivity | now rewrite IH]. Qed.

Lemma map_chars_length f s : String.length (map_chars f s) = String.length s.
Proof. induction s as [|c r IH]; simpl; congruence. Qed.

Lemma map_chars_padding k :
  map_chars url_char (Base64.padding k) = Base64.padding k.
Proof. induction k as [|k IH]; simpl; [reflexivity | now rewrite IH]. Qed.

Lemma only_padding_padding k : Base64.only_padding (Base64.padding k) = true.
Proof. induction k as [|k IH]; simpl; auto. Qed.

Lemma strip_padding_padding k :
  Base64.strip_padding (Base64.padding k) = EmptyString.
Proof.
  destruct k as [|k]; [reflexivity|].
  change (Base64.strip_padding (Base64.padding (S k)))
    with (if Base64.only_padding (Base64.padding (S k)) then EmptyString
          else String Base64.pad (Base64.strip_padding (Base64.padding k))).
  now rewrite only_padding_padding.
Qed.

Lemma strip_padding_body body k :
  all_chars (fun c => negb (Ascii.eqb c Base64.pad)) body = true ->
  Base64.strip_padding (body ++ Base64.padding k) = body.
Proof.
  induction body as [|c r IH]; intros H.
  - apply strip_padding_padding.
  - cbn [all_chars] in H. apply andb_prop in H as [Hc Hr].
    apply negb_true_iff in Hc.
    cbn [append Base64.strip_padding Base64.only_padding].
    rewrite Hc. cbn [andb]. f_equal. now apply IH.
Qed.

Lemma all_chars_impl (p q : ascii -> bool) s :
  (forall c, p c = true -> q c = true) ->
  all_chars p s = true -> all_chars q s = true.
Proof.
  intros Hpq. induction s as [|c r IH]; simpl; [reflexivity|].
  intros H. apply andb_prop in H as [Hc Hr]. now rewrite (Hpq _ Hc), IH.
Qed.

Lemma all_chars_map p f s :
  all_chars p (map_chars f s) = all_chars (fun c => p (f c)) s.
Proof. induction s as [|c r IH]; simpl; [reflexivity | now rewrite IH]. Qed.

Lemma map_chars_id f s :
  all_chars (fun c => Ascii.eqb (f c) c) s = true -> map_chars f s = s.
Proof.
  induction s as [|c r IH]; simpl; [reflexivity|].
  intros H. apply andb_prop in H as [Hc Hr].
  apply Ascii.eqb_eq in Hc. now rewrite Hc, IH.
Qed.

(** [encode_message] maps the alphabet characters and drops the padding. *)
Lemma encode_message_body s body k :
  Base64.encode s = (body ++ Base64.padding k)%string ->
  all_chars sextet body = true ->
  encode_message s = map_chars url_char body.
Proof.
  intros E Hall. unfold encode_message.
  rewrite !replace_map, map_chars_compose.
  change (fun c => if Ascii.eqb (if Ascii.eqb c "+" then "-"%char else c) "/"
                   then "_"%char
                   else if Ascii.eqb c "+" then "-"%char else c)
    with url_char.
  rewrite E, map_chars_append, map_chars_padding.
  apply strip_padding_body. rewrite all_chars_map.
  revert Hall. apply all_chars_impl. intros c Hc.
  destruct (sextet_digit c Hc) as (n & Hn & ->).
  destruct (digit_table n Hn) as (_ & _ & P & _). now rewrite P.
Qed.

Lemma encode_message_url_safe s : url_safe (encode_message s) = true.
Proof.
  destruct (encode_shape s) as (body & k & E & Hall & _).
  rewrite (encode_message_body s body k E Hall).
  unfold url_safe. rewrite all_chars_map.
  revert Hall. apply all_chars_impl. intros c Hc.
  destruct (sextet_digit c Hc) as (n & Hn & ->).
  destruct (digit_table n Hn) as (_ & _ & _ & _ & U).
  unfold url_safe in U. simpl in U. now rewrite andb_true_r in U.
Qed.

Lemma decode_url_encode_message s :
  Base64.decode_url (encode_message s) = Some s.
Proof.
  destruct (encode_shape s) as (body & k & E & Hall & Hk & Hlen).
  rewrite (encode_message_body s body k E Hall).
  unfold Base64.decode_url.
  rewrite !replace_map, !map_chars_compose, !map_chars_length.
  assert (Hid : map_chars
                  (fun c =>
                     (fun c0 => if Ascii.eqb c0 "_" then "/"%char else c0)
                       ((fun c0 => if Ascii.eqb c0 "-" then "+"%char else c0)
                          (url_char c))) body = body).
  { apply map_chars_id. revert Hall. apply all_chars_impl. intros c Hc.
    destruct (sextet_digit c Hc) as (n & Hn & ->).
    destruct (digit_table n Hn) as (_ & _ & _ & S & _).
    apply Ascii.eqb_eq. exact S. }
  rewrite Hid.
  replace ((4 - String.length body mod 4) mod 4)%nat with k by lia.
  rewrite <- E. apply decode_encode.
Qed.

(** ** [reply_to_email] *)

Ltac run :=
  cbv beta iota
    delta [bind ret throw log try_catch answer defined call_authorize] in *.

Section Reply.
Context {node : Node} {gmail : Gmail}.

Lemma reply_after_lookup replyContent options w e rest w1 :
  _get_recent_email options w = Return (e :: rest) w1 ->
  Js.truthy (Email.from e) = true ->
  Js.truthy (Email.subject e) = true ->
  Js.truthy (Email.threadId e) = true ->
  exists w2,
    calls w2 = CallAuthorize :: calls w1
    /\ reply_to_email replyContent options w
       = match authorize (calls w1) with
         | Some code => Throw (RemoteError code) w2
         | None =>
             answer
               (CallSend (encode_message (reply_message e replyContent))
                  (Email.threadId e))
               (messages_send (calls w2)
                  (encode_message (reply_message e replyContent))
                  (Email.threadId e)) w2
         end.
Proof.
  intros Hlook Hf Hs Ht. unfold reply_to_email, bind at 1. rewrite Hlook.
  rewrite Hf, Hs, Ht. cbn [negb orb].
  destruct (Js.truthy (Some (original_message_id e))); run; cbn [calls];
    (eexists; split; [|destruct (authorize (calls w1)); reflexivity]);
    reflexivity.
Qed.

(** C6. Given the emails that the one-shot lookup returned,
    [reply_to_email] raises "No email found" exactly when there is none, and
    "Missing required information" exactly when the first one lacks its
    from, subject or threadId (absent or empty, the test [!v]); when these
    three are there it raises neither, whatever the messageId is: only a
    collaborator can still fail. *)
Theorem reply_fails_iff_unusable
    (replyContent : string) (options : Options) (w w1 : World)
    (emails : list Email.t) :
  _get_recent_email options w = Return emails w1 ->
  ((exists w', reply_to_email replyContent options w = Throw not_found w')
   <-> emails = [])
  /\ ((exists w',
         reply_to_email replyContent options w = Throw missing_information w')
      <-> exists e rest,
            emails = e :: rest
            /\ (missing (Email.from e) \/ missing (Email.subject e)
                \/ missing (Email.threadId e)))
  /\ (forall e rest,
        emails = e :: rest ->
        ~ missing (Email.from e) -> ~ missing (Email.subject e) ->
        ~ missing (Email.threadId e) ->
        forall err w',
          reply_to_email replyContent options w = Throw err w' ->
          exists code, err = RemoteError code).
Proof.
  intros Hlook. unfold missing.
  destruct emails as [|e rest].
  - assert (E : reply_to_email replyContent options w = Throw not_found w1).
    { unfold reply_to_email, bind. now rewrite Hlook. }
    rewrite E. repeat split.
    + now exists w1.
    + intros (w' & [=]).
    + intros (e & rest & [=] & _).
    + discriminate.
  - destruct (Js.truthy (Email.from e)) eqn:Hf;
    destruct (Js.truthy (Email.subject e)) eqn:Hs;
    destruct (Js.truthy (Email.threadId e)) eqn:Ht.
    1: { destruct (reply_after_lookup replyContent _ _ _ _ _ Hlook Hf Hs Ht)
           as (w2 & _ & E).
         assert (R : forall err w',
                   reply_to_email replyContent options w = Throw err w' ->
                   exists code, err = RemoteError code).
         { intros err w'. rewrite E.
           destruct (authorize (calls w1)) as [code|].
           - intros [= <- _]. now exists code.
           - unfold answer.
             destruct (messages_send _ _ _) as [code|r]; [|discriminate].
             intros [= <- _]. now exists code. }
         repeat split.
         - intros (w' & H). apply R in H as (code & [=]).
         - discriminate.
         - intros (w' & H). apply R in H as (code & [=]).
         - intros (e' & rest' & [= <- <-] & [H | [H | H]]); congruence.
         - intros e' rest' [= <- <-] _ _ _. exact R. }
    all: assert (E : reply_to_email replyContent options w
                     = Throw missing_information w1)
           by (unfold reply_to_email, bind; rewrite Hlook, Hf, Hs, Ht;
               reflexivity);
         rewrite E; repeat split;
         [ intros (w' & [=])
         | discriminate
         | intros _; exists e, rest; split; [reflexivity | tauto]
         | intros _; now exists w1
         | intros e' rest' [= <- <-]; tauto ].
Qed.

(** C7. The raw message that [reply_to_email] sends is URL-safe base64
    without [+], [/] or [=], and decoding it ([-] to [+], [_] to [/],
    padding restored) gives back the header lines, an empty line and the
    body text, joined by line feeds. *)
Theorem reply_encoding_round_trip
    (replyContent : string) (options : Options) (w w' : World)
    (response : string) :
  reply_to_email replyContent options w = Return response w' ->
  exists originalEmail rest w1 earlier raw,
    _get_recent_email options w = Return (originalEmail :: rest) w1
    /\ calls w' = CallSend raw (Email.threadId originalEmail) :: earlier
    /\ url_safe raw = true
    /\ Base64.decode_url raw
       = Some (String.concat (Js.str1 Js.newline)
                 (header_lines (Email.from originalEmail)
                    (Email.subject originalEmail)
                    (original_message_id originalEmail)
                  ++ [EmptyString; replyContent])).
Proof.
  intros Hrun.
  destruct (_get_recent_email options w) as [emails w1| | |] eqn:Hlook;
    try (unfold reply_to_email, bind in Hrun; rewrite Hlook in Hrun;
         discriminate).
  destruct emails as [|e rest];
    [unfold reply_to_email, bind in Hrun; rewrite Hlook in Hrun;
     discriminate|].
  destruct (Js.truthy (Email.from e)) eqn:Hf;
  destruct (Js.truthy (Email.subject e)) eqn:Hs;
  destruct (Js.truthy (Email.threadId e)) eqn:Ht;
    try (unfold reply_to_email, bind in Hrun;
         rewrite Hlook, Hf, Hs, Ht in Hrun; discriminate).
  destruct (reply_after_lookup replyContent _ _ _ _ _ Hlook Hf Hs Ht)
    as (w2 & Hw2 & E).
  rewrite E in Hrun. destruct (authorize (calls w1)); [discriminate|].
  unfold answer in Hrun.
  destruct (messages_send _ _ _) as [code|r]; [discriminate|].
  injection Hrun as _ <-.
  exists e, rest, w1, (calls w2),
    (encode_message (reply_message e replyContent)).
  repeat split.
  - apply encode_message_url_safe.
  - apply decode_url_encode_message.
Qed.

End Reply.

Lemma reply_fails_iff_unusable_witness :
  exists w',
    @reply_to_email test_node (mailbox_after 0 [untitled_message])
      "Thanks!" (polling 5 12) start
    = Throw missing_information w'.
Proof.
  refine (proj2 (proj1 (proj2
            (@reply_fails_iff_unusable test_node
               (mailbox_after 0 [untitled_message]) "Thanks!" (polling 5 12)
               start _ _ _))) _).
  - vm_compute. reflexivity.
  - eexists _, _. split; [reflexivity|]. right. left. reflexivity.
Defined.

Lemma reply_encoding_round_trip_witness :
  exists w',
    @reply_to_email test_node (mailbox_after 0 [order_message])
      "Thanks!" (polling 5 12) start
    = Return "sent" w'
    /\ exists originalEmail rest w1 earlier raw,
         @_get_recent_email test_node (mailbox_after 0 [order_message])
           (polling 5 12) start
         = Return (originalEmail :: rest) w1
         /\ calls w' = CallSend raw (Email.threadId originalEmail) :: earlier
         /\ url_safe raw = true
         /\ Base64.decode_url raw
            = Some (String.concat (Js.str1 Js.newline)
                      (header_lines (Email.from originalEmail)
                         (Email.subject originalEmail)
                         (original_message_id originalEmail)
                       ++ [EmptyString; "Thanks!"])).
Proof.
  eexists. split.
  - vm_compute. reflexivity.
  - eapply (@reply_encoding_round_trip test_node
              (mailbox_after 0 [order_message]) "Thanks!" (polling 5 12)
              start _ "sent").
    vm_compute. reflexivity.
Defined.

(** ** The walk over the MIME tree *)

Local Open Scope list_scope.

Lemma part_size_children p : part_size p = S (forest_size (children p)).
Proof.
  destruct p as [m b [ps|]]; reflexivity.
Qed.

Lemma forest_size_app a b :
  forest_size (a ++ b) = (forest_size a + forest_size b)%nat.
Proof.
  unfold forest_size. induction a as [|x a IH]; simpl; [reflexivity|].
  rewrite IH. lia.
Qed.

Lemma forest_size_cons p ps :
  forest_size (p :: ps) = (S (forest_size (children p)) + forest_size ps)%nat.
Proof. unfold forest_size at 1. simpl. now rewrite part_size_children. Qed.

Lemma forest_size_children ps :
  forest_size ps
  = (List.length ps + forest_size (flat_map children ps))%nat.
Proof.
  induction ps as [|p ps IH]; [reflexivity|].
  rewrite forest_size_cons. cbn [flat_map List.length].
  rewrite forest_size_app. lia.
Qed.

Lemma forest_size_0 ps : forest_size ps = O -> ps = [].
Proof. destruct ps; [reflexivity|]. rewrite forest_size_cons. lia. Qed.

(** The work list hands out a prefix of the queue as it stands, and queues
    the children of that prefix behind the rest. *)
Lemma worklist_order_prefix a : forall fuel c,
  (List.length a <= fuel)%nat ->
  worklist_order fuel (a ++ c)
  = a ++ worklist_order (fuel - List.length a) (c ++ flat_map children a).
Proof.
  induction a as [|x a IH]; intros fuel c Hfuel.
  - cbn [List.length flat_map app]. now rewrite Nat.sub_0_r, app_nil_r.
  - destruct fuel as [|fuel]; [simpl in Hfuel; lia|].
    cbn [app worklist_order List.length flat_map Nat.sub].
    f_equal. rewrite <- app_assoc, IH by (simpl in Hfuel; lia).
    now rewrite <- app_assoc.
Qed.

Lemma worklist_order_levels depth : forall fuel ps,
  (forest_size ps <= depth)%nat -> (forest_size ps <= fuel)%nat ->
  worklist_order fuel ps = levels depth ps.
Proof.
  induction depth as [|depth IH]; intros fuel ps Hd Hf.
  - rewrite (forest_size_0 ps) by lia. now destruct fuel.
  - destruct ps as [|p ps]; [now destruct fuel|].
    pose proof (forest_size_children (p :: ps)) as Hsize.
    cbn [List.length] in Hsize.
    rewrite <- (app_nil_r (p :: ps)) at 1.
    rewrite worklist_order_prefix by (cbn [List.length]; lia).
    cbn [levels app]. f_equal. f_equal.
    apply IH; cbn [List.length]; lia.
Qed.

Lemma in_forest_incl p l l' :
  in_forest p l -> incl l l' -> in_forest p l'.
Proof.
  intros H Hincl. destruct H as [ps Hin | q ps Hq Hbelow].
  - apply in_forest_here. now apply Hincl.
  - eapply in_forest_below; [apply Hincl; eassumption | assumption].
Qed.

Lemma in_forest_levels depth : forall ps p,
  (forest_size ps <= depth)%nat -> in_forest p ps -> In p (levels depth ps).
Proof.
  induction depth as [|depth IH]; intros ps p Hd Hin.
  - rewrite (forest_size_0 ps) in Hin by lia.
    inversion Hin as [? H | ? ? H _]; destruct H.
  - pose proof (forest_size_children ps) as Hsize.
    destruct ps as [|x ps]; [inversion Hin as [? H | ? ? H _]; destruct H|].
    cbn [levels]. apply in_or_app.
    inversion Hin as [? Hhere | q ? Hq Hbelow]; subst; [now left | right].
    apply IH; [cbn [List.length] in Hsize; lia|].
    eapply in_forest_incl; [exact Hbelow|].
    intros y Hy. apply in_flat_map. now exists q.
Qed.

Section Walk.
Context {node : Node}.

Lemma walk_parts_visits : forall fuel queue email_body,
  (forest_size queue <= fuel)%nat ->
  (forall p, In p (worklist_order fuel queue) -> is_text p = true ->
             Raw.data (Raw.body p) <> None) ->
  walk_parts fuel queue email_body
  = Some (inr (fold_left visit (worklist_order fuel queue) email_body)).
Proof.
  induction fuel as [|fuel IH]; intros queue b Hsize Hdata.
  - rewrite (forest_size_0 queue) by lia. reflexivity.
  - destruct queue as [|p queue]; [reflexivity|].
    rewrite forest_size_cons in Hsize.
    assert (Hnext : (forest_size (queue ++ children p) <= fuel)%nat)
      by (rewrite forest_size_app; lia).
    cbn [worklist_order] in Hdata.
    assert (Hrest : forall q,
               In q (worklist_order fuel (queue ++ children p)) ->
               is_text q = true -> Raw.data (Raw.body q) <> None)
      by (intros q Hq; apply Hdata; now right).
    specialize (Hdata p (or_introl eq_refl)).
    cbn [walk_parts worklist_order fold_left].
    replace (match Raw.parts p with
             | Some nested => queue ++ nested
             | None => queue
             end) with (queue ++ children p)
      by (unfold children; destruct (Raw.parts p);
          [reflexivity | apply app_nil_r]).
    unfold visit at 2, has_type, decoded, buffer_from_base64.
    unfold is_text, has_type in Hdata.
    destruct (Raw.mimeType p =? "text/plain")%string.
    + destruct (Raw.data (Raw.body p)) as [d|];
        [now apply IH | now destruct Hdata].
    + destruct (Raw.mimeType p =? "text/html")%string.
      * destruct (Raw.data (Raw.body p)) as [d|];
          [now apply IH | now destruct Hdata].
      * now apply IH.
Qed.

(** Folding [visit] keeps, for each of the two types, the last part. *)
Lemma fold_visit_last order : forall email_body,
  fold_left visit order email_body
  = Email.mkBody
      (match last_of_type "text/html" order with
       | Some p => decoded p
       | None => Email.html email_body
       end)
      (match last_of_type "text/plain" order with
       | Some p => decoded p
       | None => Email.text email_body
       end).
Proof.
  induction order as [|x order IH] using rev_ind; intros b.
  - now destruct b.
  - rewrite fold_left_app. cbn [fold_left]. rewrite IH.
    unfold last_of_type. rewrite !rev_app_distr. cbn [rev app find].
    fold (last_of_type "text/html" order).
    fold (last_of_type "text/plain" order).
    unfold visit. cbn [Email.html Email.text].
    destruct (has_type "text/plain" x) eqn:Hp.
    + assert (Hh : has_type "text/html" x = false).
      { unfold has_type in *. apply String.eqb_eq in Hp. now rewrite Hp. }
      now rewrite Hh.
    + now destruct (has_type "text/html" x).
Qed.

End Walk.

Section Multipart.
Context {node : Node} {gmail : Gmail}.

Lemma extract_body_multipart payload ps w :
  Raw.size (Raw.body payload) = 0 ->
  Raw.parts payload = Some ps ->
  (forall p, In p (breadth_first ps) -> is_text p = true ->
             Raw.data (Raw.body p) <> None) ->
  extract_body payload w
  = Return (Email.mkBody (decoded_last "text/html" (breadth_first ps))
              (decoded_last "text/plain" (breadth_first ps))) w.
Proof.
  intros Hsize Hparts Hdata.
  assert (Horder : worklist_order (forest_size ps) ps = breadth_first ps)
    by (apply worklist_order_levels; lia).
  unfold extract_body. rewrite Hsize, Hparts. cbn [Z.eqb negb]. run.
  rewrite walk_parts_visits; [|lia|now rewrite Horder].
  rewrite Horder, fold_visit_last. reflexivity.
Qed.

(** C5. For a message whose top-level body is empty and that carries
    [parts], with [include_body] set: the work list hands the parts out
    breadth first (level by level), every part at any depth is among them,
    and [text] and [html] are the decoded data of the last text/plain and
    of the last text/html part in that order (the empty string when there
    is none), provided the parts of these two types carry inline data. In
    particular a multipart/mixed holding a multipart/alternative with a
    text/plain and a text/html leaf gives both. *)
Theorem multipart_body_breadth_first
    (options : Options) (gmail_email : Raw.Message) (ps : list Raw.Part)
    (w : World) :
  include_body options = true ->
  Raw.size (Raw.body (Raw.payload gmail_email)) = 0 ->
  Raw.parts (Raw.payload gmail_email) = Some ps ->
  (forall p, In p (breadth_first ps) -> is_text p = true ->
             Raw.data (Raw.body p) <> None) ->
  worklist_order (forest_size ps) ps = breadth_first ps
  /\ (forall p, in_forest p ps -> In p (breadth_first ps))
  /\ extract_body (Raw.payload gmail_email) w
     = Return (Email.mkBody (decoded_last "text/html" (breadth_first ps))
                 (decoded_last "text/plain" (breadth_first ps))) w
  /\ (include_attachments options = false ->
      exists email,
        normalise options gmail_email w = Return email w
        /\ Email.body email
           = Some (Email.mkBody
                     (decoded_last "text/html" (breadth_first ps))
                     (decoded_last "text/plain" (breadth_first ps))))
  /\ (forall plain html,
        extract_body
          (container "multipart/mixed"
             [container "multipart/alternative"
                [text_part "text/plain" plain; text_part "text/html" html]])
          w
        = Return (Email.mkBody (base64_to_utf8 html) (base64_to_utf8 plain))
            w).
Proof.
  intros Hbody Hsize Hparts Hdata.
  pose proof (extract_body_multipart _ _ w Hsize Hparts Hdata) as Hextract.
  split; [apply worklist_order_levels; lia|].
  split; [intros p; apply in_forest_levels; lia|].
  split; [exact Hextract|].
  split; [|reflexivity].
  intros Hatt. unfold normalise. rewrite Hbody, Hatt.
  unfold bind at 1. unfold bind at 1. rewrite Hextract.
  eexists. split; reflexivity.
Qed.

End Multipart.

Lemma multipart_body_breadth_first_witness :
  @extract_body test_node (Raw.payload order_message) start
  = Return (Email.mkBody "<b>hi</b>" "hello") start.
Proof.
  refine (eq_trans
            (proj1 (proj2 (proj2
               (@multipart_body_breadth_first test_node
                  (mailbox_after 0 [order_message])
                  (with_body (polling 1 10)) order_message
                  [container "multipart/alternative"
                     [text_part "text/plain" "aGVsbG8=";
                      text_part "text/html" "PGI-aGk8L2I-"]]
                  start eq_refl eq_refl eq_refl _)))) _).
  - intros p Hp Ht.
    vm_compute in Hp.
    destruct Hp as [<- | [<- | [<- | []]]];
      [vm_compute in Ht; discriminate | discriminate | discriminate].
  - vm_compute. reflexivity.
Defined.

Lemma multipart_body_breadth_first_counterexample :
  include_body (with_body (polling 1 10)) = true
  /\ Raw.size (Raw.body (Raw.payload attached_text_message)) = 0
  /\ (exists ps leaf,
        Raw.parts (Raw.payload attached_text_message) = Some ps
        /\ in_forest leaf ps
        /\ Raw.mimeType leaf = "text/plain"%string
        /\ Raw.parts leaf = None
        /\ Raw.data (Raw.body leaf) = Some "aGVsbG8="%string)
  /\ @extract_body test_node (Raw.payload attached_text_message) start
     = Throw (TypeError "The first argument must be of type string") start
  /\ ~ (exists email w',
          @normalise test_node (mailbox_after 0 [attached_text_message])
            (with_body (polling 1 10)) attached_text_message start
          = Return email w').
Proof.
  split; [reflexivity|]. split; [reflexivity|]. split; [|split].
  - eexists _, (text_part "text/plain" "aGVsbG8=").
    split; [reflexivity|]. split; [|repeat split].
    apply in_forest_here. left. reflexivity.
  - vm_compute. reflexivity.
  - intros (email & w' & H). vm_compute in H. discriminate H.
Qed.

(** ** Lookups *)

Lemma remote_only_ret {A} (a : A) : remote_only (ret a).
Proof. intros cs c. split; reflexivity. Qed.

Lemma remote_only_throw {A} (e : Error) : remote_only (@throw A e).
Proof. intros cs c. split; reflexivity. Qed.

Lemma remote_only_bind {A B} (m : M A) (k : A -> M B) :
  remote_only m -> (forall a, remote_only (k a)) -> remote_only (bind m k).
Proof.
  intros Hm Hk cs c. destruct (Hm cs c) as [Hblind Hquiet].
  unfold bind. split.
  - intros c'. rewrite Hblind.
    destruct (m (mkWorld cs c)) as [a [cs1 c1]|e [cs1 c1]|code w1|];
      cbn [on_console calls]; try reflexivity; try contradiction.
    apply (Hk a cs1 c1).
  - destruct (m (mkWorld cs c)) as [a [cs1 c1]|e w1|code w1|];
      try assumption.
    cbn [calls] in Hquiet. rewrite <- Hquiet.
    apply (Hk a cs1 c1).
Qed.

Lemma remote_only_answer {A} (call : Call) (f : list Call -> nat + A) :
  sleeps [call] = [] ->
  remote_only (fun w => answer call (f (calls w)) w).
Proof.
  intros Hcall cs c. unfold answer, record. cbn [calls console].
  assert (Hs : sleeps (call :: cs) = sleeps cs)
    by (destruct call; try reflexivity; discriminate).
  destruct (f cs); split; auto.
Qed.

Lemma walk_parts_total {node : Node} : forall fuel queue email_body,
  (forest_size queue <= fuel)%nat ->
  walk_parts fuel queue email_body <> None.
Proof.
  induction fuel as [|fuel IH]; intros queue b Hsize.
  - rewrite (forest_size_0 queue) by lia. discriminate.
  - destruct queue as [|p queue]; [discriminate|].
    rewrite forest_size_cons in Hsize.
    assert (Hnext : (forest_size (queue ++ children p) <= fuel)%nat)
      by (rewrite forest_size_app; lia).
    cbn [walk_parts].
    replace (match Raw.parts p with
             | Some nested => queue ++ nested
             | None => queue
             end) with (queue ++ children p)
      by (unfold children; destruct (Raw.parts p);
          [reflexivity | apply app_nil_r]).
    destruct (Raw.mimeType p =? "text/plain")%string;
      [|destruct (Raw.mimeType p =? "text/html")%string];
      try (destruct (buffer_from_base64 _); [discriminate|]);
      now apply IH.
Qed.

Section Lookup.
Context {node : Node} {gmail : Gmail}.

Lemma remote_only_extract_body payload : remote_only (extract_body payload).
Proof.
  unfold extract_body.
  destruct (negb (Raw.size (Raw.body payload) =? 0)).
  - destruct (Raw.mimeType payload =? "text/html")%string;
      destruct (buffer_from_base64 _);
      auto using remote_only_ret, remote_only_throw.
  - apply remote_only_bind.
    + unfold defined. destruct (Raw.parts payload);
        auto using remote_only_ret, remote_only_throw.
    + intros ps.
      pose proof (walk_parts_total (forest_size ps) ps
                    (Email.mkBody EmptyString EmptyString)
                    (Nat.le_refl _)) as Htotal.
      destruct (walk_parts _ _ _) as [[e|b]|];
        [apply remote_only_throw | apply remote_only_ret | congruence].
Qed.

Lemma remote_only_normalise options gmail_email :
  remote_only (normalise options gmail_email).
Proof.
  unfold normalise. apply remote_only_bind.
  - destruct (include_body options); [|apply remote_only_ret].
    apply remote_only_bind; [apply remote_only_extract_body|].
    intros b. apply remote_only_ret.
  - intros email. destruct (include_attachments options);
      [|apply remote_only_ret].
    apply remote_only_bind; [|intros atts; apply remote_only_ret].
    apply (remote_only_answer (CallAttachments gmail_email)
             (fun cs => get_email_attachments cs gmail_email)).
    reflexivity.
Qed.

Lemma remote_only_for_each options gmail_emails : forall emails,
  remote_only (for_each options gmail_emails emails).
Proof.
  induction gmail_emails as [|m rest IH]; intros emails; cbn [for_each].
  - apply remote_only_ret.
  - apply remote_only_bind; [apply remote_only_normalise|].
    intros email. apply IH.
Qed.

Lemma remote_only_authorize : remote_only call_authorize.
Proof.
  intros cs c. unfold call_authorize, record. cbn [calls console].
  destruct (authorize cs); split; auto.
Qed.

Lemma remote_only_lookup options : remote_only (_get_recent_email options).
Proof.
  unfold _get_recent_email.
  apply remote_only_bind; [apply remote_only_authorize|]. intros _.
  apply remote_only_bind; [|intros batch; apply remote_only_for_each].
  apply (remote_only_answer
           (CallSearch (_init_query options) (label options))
           (fun cs => get_recent_email cs (_init_query options)
                        (label options))).
  reflexivity.
Qed.

(** A lookup returns or throws. *)
Lemma lookup_terminates options w :
  (exists emails w', _get_recent_email options w = Return emails w')
  \/ (exists e w', _get_recent_email options w = Throw e w').
Proof.
  destruct w as [cs c].
  destruct (remote_only_lookup options cs c) as [_ H].
  destruct (_get_recent_email options (mkWorld cs c)) as [a w'|e w'| |];
    [left | right | contradiction | contradiction]; eauto.
Qed.

Lemma lookup_logged options l w :
  _get_recent_email options (logged l w)
  = on_console (l :: console w) (_get_recent_email options w).
Proof.
  destruct w as [cs c]. unfold logged. cbn [calls console].
  apply (remote_only_lookup options cs c).
Qed.

Lemma lookup_sleeps options w :
  match _get_recent_email options w with
  | Return _ w' | Throw _ w' => sleeps (calls w') = sleeps (calls w)
  | _ => False
  end.
Proof.
  destruct w as [cs c]. apply (remote_only_lookup options cs c).
Qed.

Lemma lookup_console options w :
  match _get_recent_email options w with
  | Return _ w' | Throw _ w' => console w' = console w
  | _ => False
  end.
Proof.
  destruct w as [cs c].
  destruct (remote_only_lookup options cs c) as [Hblind Hquiet].
  specialize (Hblind c).
  destruct (_get_recent_email options (mkWorld cs c)) as [a w'|e w'| |];
    try contradiction; cbn [on_console] in Hblind;
    injection Hblind as ->; reflexivity.
Qed.

End Lookup.

(** ** The loop of [__check_inbox] *)

Section Poller.
Context {node : Node} {gmail : Gmail}.

(** One iteration, by the outcome of its lookup. *)
Lemma poll_step fuel options d w :
  poll (S fuel) options d w
  = match _get_recent_email options w with
    | Return [] w1 =>
        if num_ge (num_add d (to_number (wait_time_sec options)))
                  (to_number (max_wait_time_sec options))
        then Return None
               (logged LogMaxWait
                  (logged (LogNotFound (wait_time_sec options)) w1))
        else poll fuel options
               (num_add d (to_number (wait_time_sec options)))
               (slept options w1)
    | Return emails w1 => Return (Some emails) (logged LogFound w1)
    | Throw e w1 => Throw e w1
    | Exit code w1 => Exit code w1
    | OutOfFuel => OutOfFuel
    end.
Proof.
  cbn [poll]. unfold bind at 1.
  destruct (_get_recent_email options w) as [[|e emails] w1| | |];
    try reflexivity.
  cbn [List.length Nat.ltb Nat.leb]. run. cbn [calls console].
  destruct (num_ge _ _); reflexivity.
Qed.

Lemma poll_idles options n w d w' d' :
  idles options n w d w' d' ->
  forall fuel, poll (n + fuel) options d w = poll fuel options d' w'.
Proof.
  induction 1 as [|n w d w1 w' d' Hlook Hge _ IH]; intros fuel;
    [reflexivity|].
  cbn [Nat.add]. rewrite poll_step, Hlook, Hge. apply IH.
Qed.

Lemma idles_snoc options n w d w' d' w1 :
  idles options n w d w' d' ->
  _get_recent_email options w' = Return [] w1 ->
  num_ge (num_add d' (to_number (wait_time_sec options)))
         (to_number (max_wait_time_sec options)) = false ->
  idles options (S n) w d (slept options w1)
    (num_add d' (to_number (wait_time_sec options))).
Proof.
  induction 1 as [|n w d w2 w' d' Hlook Hge _ IH]; intros Hlast Hlt.
  - eapply idles_S; [eassumption | assumption | apply idles_O].
  - eapply idles_S; [eassumption | assumption | now apply IH].
Qed.

(** Each idle iteration sleeps the interval once and nothing else sleeps. *)
Lemma idles_sleeps options n w d w' d' :
  idles options n w d w' d' ->
  sleeps (calls w')
  = repeat (num_mul (to_number (wait_time_sec options)) (Fin 1000)) n
    ++ sleeps (calls w).
Proof.
  induction 1 as [|n w d w1 w' d' Hlook Hge _ IH]; [reflexivity|].
  rewrite IH. cbn [slept record logged calls sleeps].
  pose proof (lookup_sleeps options w) as Hs. rewrite Hlook in Hs.
  rewrite Hs. cbn [repeat].
  rewrite (repeat_cons n). now rewrite <- app_assoc.
Qed.

(** With an integral interval the accumulated time is a multiple of it. *)
Lemma idles_accumulates options n w d0 w' d' wt :
  wait_time_sec options = Some wt ->
  idles options n w (Fin d0) w' d' ->
  d' = Fin (d0 + Z.of_nat n * wt).
Proof.
  intros Hwt H. remember (Fin d0) as d eqn:Hd. revert d0 Hd.
  induction H as [|n w d w1 w' d' Hlook Hge _ IH]; intros d0 ->.
  - f_equal. lia.
  - rewrite Hwt in IH. cbn [to_number num_add] in IH.
    rewrite (IH _ eq_refl). f_equal. lia.
Qed.

(** Every run of the loop that ends is a series of idle iterations followed
    by one last lookup. *)
Lemma poll_ends fuel : forall options d w r,
  poll fuel options d w = r -> r <> OutOfFuel ->
  exists n w' d',
    (n < fuel)%nat
    /\ idles options n w d w' d'
    /\ r = poll 1 options d' w'
    /\ match _get_recent_email options w' with
       | Return [] _ =>
           num_ge (num_add d' (to_number (wait_time_sec options)))
                  (to_number (max_wait_time_sec options)) = true
       | _ => True
       end.
Proof.
  induction fuel as [|fuel IH]; intros options d w r Hrun Hr;
    [cbn in Hrun; congruence|].
  rewrite poll_step in Hrun.
  destruct (_get_recent_email options w) as [[|e emails] w1|e w1|c w1|]
    eqn:Hlook.
  2-5: exists O, w, d; rewrite poll_step, Hlook;
       repeat split; [lia | apply idles_O | congruence].
  destruct (num_ge _ _) eqn:Hge.
  - exists O, w, d. rewrite poll_step, Hlook, Hge.
    repeat split; [lia | apply idles_O | congruence].
  - destruct (IH _ _ _ _ Hrun Hr) as (n & w' & d' & Hn & Hidle & E & Hlast).
    exists (S n), w', d'. repeat split; [lia | | exact E | exact Hlast].
    eapply idles_S; eassumption.
Qed.

Lemma check_inbox_poll fuel options w :
  __check_inbox fuel options w
  = match poll fuel options (Fin 0) (entered options w) with
    | Throw e w' => Throw e (logged (LogError e) w')
    | r => r
    end.
Proof. reflexivity. Qed.

End Poller.

Section PollerClaims.
Context {node : Node} {gmail : Gmail}.

Lemma num_ge_fin (a b : Z) : num_ge (Fin a) (Fin b) = true <-> a >= b.
Proof. cbn [num_ge]. rewrite Z.geb_leb, Z.leb_le. lia. Qed.

Lemma num_ge_fin_false (a b : Z) : num_ge (Fin a) (Fin b) = false <-> a < b.
Proof. cbn [num_ge]. rewrite Z.geb_leb, Z.leb_gt. lia. Qed.

(** C1. While the batches are empty the poller adds the interval to the
    elapsed time and, unless the budget is then used up, sleeps the interval:
    after [n] such iterations the elapsed time is [n] intervals and [n]
    sleeps of one interval each were made. An empty batch that brings the
    elapsed time to the maximum or beyond ends the call with null, without
    a further sleep; a non-empty batch is returned at once; and null is
    returned only in the former way. With two empty batches and then a
    message, interval 1 and maximum 10, the message is returned after exactly
    two sleeps; with a mailbox that stays empty, interval 5 and maximum 12,
    null is returned after exactly two sleeps. *)
Theorem poller_sleeps_until_found_or_timeout
    (options : Options) (wt mx : Z) (n : nat) (w0 w : World) (d : Num) :
  wait_time_sec options = Some wt ->
  max_wait_time_sec options = Some mx ->
  idles options n (entered options w0) (Fin 0) w d ->
  d = Fin (Z.of_nat n * wt)
  /\ sleeps (calls w) = repeat (Fin (wt * 1000)) n ++ sleeps (calls w0)
  /\ (forall w1 fuel,
        _get_recent_email options w = Return [] w1 ->
        ((Z.of_nat n + 1) * wt >= mx ->
         __check_inbox (n + S fuel) options w0
         = Return None
             (logged LogMaxWait (logged (LogNotFound (Some wt)) w1))
         /\ sleeps (calls w1) = sleeps (calls w))
        /\ ((Z.of_nat n + 1) * wt < mx ->
            idles options (S n) (entered options w0) (Fin 0)
              (slept options w1) (Fin ((Z.of_nat n + 1) * wt))))
  /\ (forall e emails w1 fuel,
        _get_recent_email options w = Return (e :: emails) w1 ->
        __check_inbox (n + S fuel) options w0
        = Return (Some (e :: emails)) (logged LogFound w1))
  /\ (forall fuel wf,
        __check_inbox fuel options w0 = Return None wf ->
        exists k,
          (k < fuel)%nat
          /\ (Z.of_nat k + 1) * wt >= mx
          /\ sleeps (calls wf)
             = repeat (Fin (wt * 1000)) k ++ sleeps (calls w0))
  /\ (forall fuel, (3 <= fuel)%nat ->
      exists emails w',
        @check_inbox test_node (mailbox_after 2 [order_message]) fuel
          (Object (polling 1 10)) start
        = Return (Some emails) w'
        /\ emails <> []
        /\ sleeps (calls w') = [Fin 1000; Fin 1000])
  /\ (forall fuel, (3 <= fuel)%nat ->
      exists w',
        @check_inbox test_node empty_mailbox fuel (Object (polling 5 12))
          start
        = Return None w'
        /\ sleeps (calls w') = [Fin 5000; Fin 5000]).
Proof.
  intros Hwt Hmx Hidle.
  assert (Hd : d = Fin (Z.of_nat n * wt))
    by (rewrite (idles_accumulates _ _ _ _ _ _ _ Hwt Hidle); f_equal; lia).
  assert (Hsleeps : sleeps (calls w)
                    = repeat (Fin (wt * 1000)) n ++ sleeps (calls w0))
    by (rewrite (idles_sleeps _ _ _ _ _ _ Hidle), Hwt; reflexivity).
  assert (Hbudget : num_add d (to_number (wait_time_sec options))
                    = Fin ((Z.of_nat n + 1) * wt))
    by (rewrite Hd, Hwt; cbn [to_number num_add]; f_equal; lia).
  split; [exact Hd|]. split; [exact Hsleeps|].
  split; [|split; [|split; [|split]]].
  - intros w1 fuel Hlook. split.
    + intros Hover. split.
      * rewrite check_inbox_poll, (poll_idles _ _ _ _ _ _ Hidle), poll_step,
          Hlook, Hbudget, Hmx.
        cbn [to_number]. rewrite (proj2 (num_ge_fin _ _) Hover).
        now rewrite Hwt.
      * pose proof (lookup_sleeps options w) as Hs. now rewrite Hlook in Hs.
    + intros Hunder. rewrite <- Hbudget.
      apply (idles_snoc _ _ _ _ _ _ _ Hidle Hlook).
      rewrite Hbudget, Hmx. cbn [to_number]. now apply num_ge_fin_false.
  - intros e emails w1 fuel Hlook.
    rewrite check_inbox_poll, (poll_idles _ _ _ _ _ _ Hidle), poll_step, Hlook.
    reflexivity.
  - intros fuel wf Hrun. rewrite check_inbox_poll in Hrun.
    destruct (poll fuel options (Fin 0) (entered options w0))
      as [a wa|e wa|c wa|] eqn:Hpoll; try discriminate.
    injection Hrun as -> ->.
    destruct (poll_ends _ _ _ _ _ Hpoll ltac:(discriminate))
      as (k & w' & d' & Hk & Hidle' & Hlast & Hcond).
    exists k. split; [exact Hk|].
    rewrite poll_step in Hlast.
    pose proof (lookup_sleeps options w') as Hs.
    destruct (_get_recent_email options w') as [[|e emails] w1|e w1|c w1|];
      try discriminate.
    rewrite Hcond in Hlast. injection Hlast as ->.
    rewrite (idles_accumulates _ _ _ _ _ _ _ Hwt Hidle'), Hwt, Hmx in Hcond.
    cbn [to_number num_add] in Hcond. apply num_ge_fin in Hcond.
    split; [lia|].
    cbn [logged calls]. rewrite Hs, (idles_sleeps _ _ _ _ _ _ Hidle'), Hwt.
    reflexivity.
  - intros fuel Hfuel. destruct fuel as [|[|[|fuel]]]; try lia.
    do 2 eexists. split; [vm_compute; reflexivity|].
    split; [discriminate | reflexivity].
  - intros fuel Hfuel. destruct fuel as [|[|[|fuel]]]; try lia.
    eexists. split; [vm_compute; reflexivity | reflexivity].
Qed.

End PollerClaims.

Lemma poller_sleeps_until_found_or_timeout_witness :
  exists w d,
    @idles test_node (mailbox_after 2 [order_message]) (polling 1 10) 2
      (entered (polling 1 10) start) (Fin 0) w d
    /\ d = Fin (Z.of_nat 2 * 1)
    /\ sleeps (calls w) = repeat (Fin (1 * 1000)) 2 ++ sleeps (calls start).
Proof.
  eassert (H : @idles test_node (mailbox_after 2 [order_message])
                 (polling 1 10) 2 (entered (polling 1 10) start) (Fin 0) _ _).
  { eapply idles_S; [vm_compute; reflexivity | reflexivity |].
    eapply idles_S; [vm_compute; reflexivity | reflexivity |].
    apply idles_O. }
  eexists _, _. split; [exact H|].
  destruct (@poller_sleeps_until_found_or_timeout test_node
              (mailbox_after 2 [order_message]) (polling 1 10) 1 10 2 start
              _ _ eq_refl eq_refl H) as (Hd & Hs & _).
  split; [exact Hd | exact Hs].
Defined.

(** ** Errors *)

Section Errors.
Context {node : Node} {gmail : Gmail}.

Lemma check_inbox_first_lookup fuel options w err w1 :
  _get_recent_email options w = Throw err w1 ->
  check_inbox (S fuel) (Object options) w
  = Throw err
      (logged (LogError err)
         (mkWorld (calls w1)
            (LogChecking (from options) (to options) (subject options)
             :: console w))).
Proof.
  intros Hlook. cbn [check_inbox].
  rewrite check_inbox_poll, poll_step. unfold entered.
  rewrite lookup_logged, Hlook. reflexivity.
Qed.

Lemma reply_lookup_fails replyContent options w err w1 :
  _get_recent_email options w = Throw err w1 ->
  reply_to_email replyContent options w = Throw err w1.
Proof. intros Hlook. unfold reply_to_email, bind. now rewrite Hlook. Qed.

Lemma get_messages_lookup_fails options w err w1 :
  _get_recent_email options w = Throw err w1 ->
  get_messages options w = Return None (logged (LogError err) w1).
Proof.
  intros Hlook. unfold get_messages, try_catch, bind. now rewrite Hlook.
Qed.

(** C3. When the lookup (search and decoding) raises an error,
    [get_messages] does not rethrow: it logs the error and returns
    [undefined]; [check_inbox] and [reply_to_email] let the same error
    reach the caller. *)
Theorem get_messages_alone_suppresses_failure
    (options : Options) (w w1 : World) (err : Error) :
  _get_recent_email options w = Throw err w1 ->
  get_messages options w = Return None (logged (LogError err) w1)
  /\ (forall fuel,
        check_inbox (S fuel) (Object options) w
        = Throw err
            (logged (LogError err)
               (mkWorld (calls w1)
                  (LogChecking (from options) (to options) (subject options)
                   :: console w))))
  /\ (forall replyContent,
        reply_to_email replyContent options w = Throw err w1).
Proof.
  intros Hlook. split; [now apply get_messages_lookup_fails|].
  split; [intros fuel; now apply check_inbox_first_lookup|].
  intros replyContent. now apply reply_lookup_fails.
Qed.

(** C4. When, after any number of iterations that found an empty batch,
    the lookup of an iteration raises an error, the call ends in that
    iteration with this very error and nothing is asked of the collaborators
    afterwards; every call that ends with an error ends that way; and an
    iteration is followed by another one only when its batch was empty. *)
Theorem poller_never_retries_an_error
    (options : Options) (n : nat) (w0 w w1 : World) (d : Num) (e : Error) :
  idles options n (entered options w0) (Fin 0) w d ->
  _get_recent_email options w = Throw e w1 ->
  (forall fuel,
     __check_inbox (n + S fuel) options w0 = Throw e (logged (LogError e) w1))
  /\ calls (logged (LogError e) w1) = calls w1
  /\ (forall fuel v0 e' wf,
        __check_inbox fuel options v0 = Throw e' wf ->
        exists k v d' v1,
          (k < fuel)%nat
          /\ idles options k (entered options v0) (Fin 0) v d'
          /\ _get_recent_email options v = Throw e' v1
          /\ wf = logged (LogError e') v1)
  /\ (forall fuel d' v,
        poll (S fuel) options d' v = poll 1 options d' v
        \/ exists v1,
             _get_recent_email options v = Return [] v1
             /\ poll (S fuel) options d' v
                = poll fuel options
                    (num_add d' (to_number (wait_time_sec options)))
                    (slept options v1)).
Proof.
  intros Hidle Hlook. split; [|split; [reflexivity|split]].
  - intros fuel.
    rewrite check_inbox_poll, (poll_idles _ _ _ _ _ _ Hidle), poll_step, Hlook.
    reflexivity.
  - intros fuel v0 e' wf Hrun. rewrite check_inbox_poll in Hrun.
    destruct (poll fuel options (Fin 0) (entered options v0))
      as [a wa|e0 wa|c wa|] eqn:Hpoll; try discriminate.
    injection Hrun as -> <-.
    destruct (poll_ends _ _ _ _ _ Hpoll ltac:(discriminate))
      as (k & v & d' & Hk & Hidle' & Hlast & Hcond).
    rewrite poll_step in Hlast.
    destruct (_get_recent_email options v) as [[|x xs] v1|x v1|c v1|] eqn:Hv;
      try discriminate.
    + rewrite Hcond in Hlast. discriminate.
    + injection Hlast as -> ->. exists k, v, d', v1. auto.
  - intros fuel d' v. rewrite !poll_step.
    destruct (_get_recent_email options v) as [[|x xs] v1|x v1|c v1|];
      try (now left).
    destruct (num_ge _ _); [now left | right]. now exists v1.
Qed.

(** A message whose decoding raises an error makes the whole lookup raise
    one. *)
Lemma for_each_fails options m batch :
  In m batch ->
  (forall w, exists e, normalise options m w = Throw e w) ->
  forall emails w,
    exists err w1, for_each options batch emails w = Throw err w1.
Proof.
  intros Hin Hm. induction batch as [|x rest IH]; [destruct Hin|].
  intros emails [cs c]. cbn [for_each]. unfold bind.
  destruct (remote_only_normalise options x cs c) as [_ Hx].
  destruct Hin as [-> | Hin].
  - destruct (Hm (mkWorld cs c)) as [e He]. rewrite He. eauto.
  - destruct (normalise options x (mkWorld cs c)) as [a w'|e w'| |];
      [apply (IH Hin) | eauto | contradiction | contradiction].
Qed.

(** C10. With [include_body] set, a message whose top-level body is empty
    and whose payload has no [parts] makes the decoding raise a TypeError:
    the lookup that finds it raises an error, so [check_inbox] (in its first
    or in a later iteration) and [reply_to_email] raise it and
    [get_messages] returns [undefined]; no email is returned for it. *)
Theorem hollow_payload_fails
    (options : Options) (w : World) (batch : list Raw.Message)
    (m : Raw.Message) :
  include_body options = true ->
  authorize (calls w) = None ->
  get_recent_email (CallAuthorize :: calls w) (_init_query options)
    (label options) = inr batch ->
  In m batch ->
  Raw.size (Raw.body (Raw.payload m)) = 0 ->
  Raw.parts (Raw.payload m) = None ->
  (forall v,
     extract_body (Raw.payload m) v
     = Throw (TypeError "undefined is not iterable") v)
  /\ (forall v,
        normalise options m v
        = Throw (TypeError "undefined is not iterable") v)
  /\ exists err w1,
       _get_recent_email options w = Throw err w1
       /\ get_messages options w = Return None (logged (LogError err) w1)
       /\ (forall fuel,
             exists wf,
               check_inbox (S fuel) (Object options) w = Throw err wf)
       /\ (forall n w0 d fuel,
             idles options n (entered options w0) (Fin 0) w d ->
             __check_inbox (n + S fuel) options w0
             = Throw err (logged (LogError err) w1))
       /\ (forall replyContent,
             reply_to_email replyContent options w = Throw err w1).
Proof.
  intros Hbody Hauth Hsearch Hin Hsize Hparts.
  assert (Hextract : forall v,
             extract_body (Raw.payload m) v
             = Throw (TypeError "undefined is not iterable") v)
    by (intros v; unfold extract_body; rewrite Hsize, Hparts; reflexivity).
  assert (Hnorm : forall v,
             normalise options m v
             = Throw (TypeError "undefined is not iterable") v)
    by (intros v; unfold normalise; rewrite Hbody;
        unfold bind; rewrite Hextract; reflexivity).
  split; [exact Hextract|]. split; [exact Hnorm|].
  assert (Hlook : exists err w1, _get_recent_email options w = Throw err w1).
  { unfold _get_recent_email, bind, call_authorize. rewrite Hauth.
    cbn [record calls answer]. unfold answer. rewrite Hsearch.
    apply (for_each_fails options m batch Hin).
    intros v. eexists. apply Hnorm. }
  destruct Hlook as (err & w1 & Hlook). exists err, w1.
  split; [exact Hlook|].
  split; [now apply get_messages_lookup_fails|].
  split; [intros fuel; eexists;
          apply (check_inbox_first_lookup _ _ _ _ _ Hlook)|].
  split; [|intros replyContent; now apply reply_lookup_fails].
  intros n w0 d fuel Hidle.
  rewrite check_inbox_poll, (poll_idles _ _ _ _ _ _ Hidle), poll_step, Hlook.
  reflexivity.
Qed.

End Errors.

Lemma get_messages_alone_suppresses_failure_witness :
  exists w1,
    @get_messages test_node (mailbox_failing 0 7) (polling 1 10) start
    = Return None (logged (LogError (RemoteError 7)) w1).
Proof.
  eexists.
  refine (proj1 (@get_messages_alone_suppresses_failure test_node
                   (mailbox_failing 0 7) (polling 1 10) start _
                   (RemoteError 7) _)).
  vm_compute. reflexivity.
Defined.

Lemma poller_never_retries_an_error_witness :
  exists w1,
    forall fuel,
      @__check_inbox test_node (mailbox_failing 1 7) (1 + S fuel)
        (polling 1 10) start
      = Throw (RemoteError 7) (logged (LogError (RemoteError 7)) w1).
Proof.
  eexists.
  refine (proj1 (@poller_never_retries_an_error test_node
                   (mailbox_failing 1 7) (polling 1 10) 1 start _ _ _
                   (RemoteError 7) _ _)).
  - eapply idles_S; [vm_compute; reflexivity | reflexivity | apply idles_O].
  - vm_compute. reflexivity.
Defined.

Lemma hollow_payload_fails_witness :
  @normalise test_node (mailbox_after 0 [hollow_message])
    (with_body (polling 1 10)) hollow_message start
  = Throw (TypeError "undefined is not iterable") start.
Proof.
  refine (proj1 (proj2
            (@hollow_payload_fails test_node
               (mailbox_after 0 [hollow_message]) (with_body (polling 1 10))
               start [hollow_message] hollow_message
               eq_refl eq_refl eq_refl (or_introl eq_refl) eq_refl eq_refl))
            start).
Defined.

(** ** Fields of the emails *)

Section Fields.
Context {node : Node} {gmail : Gmail}.

Lemma normalise_fields options m w e w' :
  normalise options m w = Return e w' ->
  optional_fields options e /\ fixed_fields m e.
Proof.
  unfold normalise, optional_fields, fixed_fields, bind.
  destruct (include_body options).
  - destruct (extract_body (Raw.payload m) w) as [b w1|x w1|c w1|];
      try discriminate.
    cbn [ret]. destruct (include_attachments options).
    + unfold answer. destruct (get_email_attachments _ _); [discriminate|].
      intros [= <- _]. cbn. repeat split; congruence.
    + intros [= <- _]. cbn. repeat split; congruence.
  - cbn [ret]. destruct (include_attachments options).
    + unfold answer. destruct (get_email_attachments _ _); [discriminate|].
      intros [= <- _]. cbn. repeat split; congruence.
    + intros [= <- _]. cbn. repeat split; congruence.
Qed.

Lemma for_each_fields options batch : forall acc w emails w',
  for_each options batch acc w = Return emails w' ->
  exists new,
    emails = acc ++ new
    /\ Forall (optional_fields options) new
    /\ Forall2 fixed_fields batch new.
Proof.
  induction batch as [|m rest IH]; intros acc w emails w'; cbn [for_each].
  - intros [= <- _]. exists []. now rewrite app_nil_r.
  - unfold bind.
    destruct (normalise options m w) as [e w1|x w1|c w1|] eqn:Hm;
      try discriminate.
    intros Hrest. apply IH in Hrest as (new & -> & Hopt & Hfix).
    apply normalise_fields in Hm as [Ho Hf].
    exists (e :: new). rewrite <- app_assoc. repeat split; auto.
Qed.

Lemma lookup_fields options w emails w' :
  _get_recent_email options w = Return emails w' ->
  Forall (optional_fields options) emails
  /\ exists batch, Forall2 fixed_fields batch emails.
Proof.
  unfold _get_recent_email, bind.
  destruct (call_authorize w) as [[] w1|x w1|c w1|]; try discriminate.
  unfold answer. destruct (get_recent_email _ _ _) as [code|batch];
    [discriminate|].
  intros H. apply for_each_fields in H as (new & -> & Hopt & Hfix).
  split; [exact Hopt | now exists batch].
Qed.

Lemma lookup_fields_of_answer options w emails w' :
  _get_recent_email options w = Return emails w' ->
  exists batch,
    get_recent_email (CallAuthorize :: calls w) (_init_query options)
      (label options) = inr batch
    /\ Forall2 fixed_fields batch emails.
Proof.
  unfold _get_recent_email, bind, call_authorize.
  destruct (authorize (calls w)); [discriminate|].
  unfold answer. cbn [record calls].
  destruct (get_recent_email _ _ _) as [code|batch] eqn:Hsearch;
    [discriminate|].
  intros H. apply for_each_fields in H as (new & -> & _ & Hfix).
  now exists batch.
Qed.

(** C8. In every email that a public operation produces, [body] is there
    exactly when [include_body] was set and [attachments] exactly when
    [include_attachments] was set; the other fields are those of the raw
    messages that the search of that lookup answered with, one email per raw
    message and in their order, whatever the flags: for a lookup and for
    [get_messages] the search made from the world of the call, for
    [check_inbox] the search of the iteration that follows the idle ones. *)
Theorem optional_fields_follow_flags
    (options : Options) (emails : list Email.t) :
  (produced options emails -> Forall (optional_fields options) emails)
  /\ (forall w w',
        _get_recent_email options w = Return emails w' ->
        exists batch,
          get_recent_email (CallAuthorize :: calls w) (_init_query options)
            (label options) = inr batch
          /\ Forall2 fixed_fields batch emails)
  /\ (forall w w',
        get_messages options w = Return (Some emails) w' ->
        exists batch,
          get_recent_email (CallAuthorize :: calls w) (_init_query options)
            (label options) = inr batch
          /\ Forall2 fixed_fields batch emails)
  /\ (forall fuel w w',
        check_inbox fuel (Object options) w = Return (Some emails) w' ->
        exists n v d batch,
          idles options n (entered options w) (Fin 0) v d
          /\ get_recent_email (CallAuthorize :: calls v)
               (_init_query options) (label options) = inr batch
          /\ Forall2 fixed_fields batch emails).
Proof.
  assert (Hpoll : forall fuel w w',
             check_inbox fuel (Object options) w = Return (Some emails) w' ->
             exists n v d v1,
               idles options n (entered options w) (Fin 0) v d
               /\ _get_recent_email options v = Return emails v1).
  { intros fuel w w' H. cbn [check_inbox] in H.
    rewrite check_inbox_poll in H.
    destruct (poll fuel options (Fin 0) (entered options w))
      as [a wa|e wa|c wa|] eqn:Hpoll; try discriminate.
    injection H as -> ->.
    destruct (poll_ends _ _ _ _ _ Hpoll ltac:(discriminate))
      as (k & v & d' & _ & Hidle & Hlast & Hcond).
    rewrite poll_step in Hlast.
    destruct (_get_recent_email options v) as [[|x xs] v1|x v1|c v1|] eqn:Hv;
      try discriminate.
    - rewrite Hcond in Hlast. discriminate.
    - injection Hlast as -> _. now exists k, v, d', v1. }
  assert (Hget : forall w w',
             get_messages options w = Return (Some emails) w' ->
             _get_recent_email options w = Return emails w').
  { intros w w' H. unfold get_messages, try_catch, bind in H.
    destruct (_get_recent_email options w) as [a wa|e wa|c wa|];
      try discriminate.
    now injection H as -> ->. }
  split; [|split; [|split]].
  - intros [(w & w' & H) | [(fuel & w & w' & H) | (w & w' & H)]].
    + eapply lookup_fields; eassumption.
    + apply Hpoll in H as (n & v & d & v1 & _ & H).
      eapply lookup_fields; eassumption.
    + apply Hget in H. eapply lookup_fields; eassumption.
  - intros w w' H. eapply lookup_fields_of_answer; eassumption.
  - intros w w' H. apply Hget in H.
    eapply lookup_fields_of_answer; eassumption.
  - intros fuel w w' H. apply Hpoll in H as (n & v & d & v1 & Hidle & H).
    apply lookup_fields_of_answer in H as (batch & Hsearch & Hfix).
    now exists n, v, d, batch.
Qed.

(** C9. The defaults of [check_inbox] (interval 30, maximum 30, label
    INBOX) are the options of the call only when the argument is omitted;
    an options object is used as it is, so an interval and a maximum that
    the caller did not set stay undefined: after an empty batch such a call
    sleeps for NaN milliseconds and goes on, and never gives up, where the
    defaults give up after the first empty batch. *)
Theorem check_inbox_defaults_need_omission :
  (wait_time_sec check_inbox_default = Some 30
   /\ max_wait_time_sec check_inbox_default = Some 30
   /\ label check_inbox_default = Some "INBOX"%string)
  /\ (forall fuel w,
        check_inbox fuel Omitted w = __check_inbox fuel check_inbox_default w)
  /\ (forall fuel o w,
        check_inbox fuel (Object o) w = __check_inbox fuel o w)
  /\ (forall o,
        wait_time_sec o = None -> max_wait_time_sec o = None ->
        forall fuel d w w1,
          _get_recent_email o w = Return [] w1 ->
          poll (S fuel) o d w
          = poll fuel o NaN
              (record (CallSleep NaN) (logged (LogNotFound None) w1)))
  /\ (forall fuel w w1,
        _get_recent_email check_inbox_default (entered check_inbox_default w)
        = Return [] w1 ->
        check_inbox (S fuel) Omitted w
        = Return None
            (logged LogMaxWait (logged (LogNotFound (Some 30)) w1)))
  /\ (forall fuel,
        @check_inbox test_node empty_mailbox fuel (Object filters_only) start
        = OutOfFuel)
  /\ (forall fuel,
      exists w',
        @check_inbox test_node empty_mailbox (S fuel) Omitted start
        = Return None w'
        /\ sleeps (calls w') = []).
Proof.
  split; [repeat split|]. split; [reflexivity|]. split; [reflexivity|].
  split; [|split; [|split]].
  - intros o Hwt Hmx fuel d w w1 Hlook.
    rewrite poll_step, Hlook, Hwt, Hmx. cbn [to_number].
    unfold slept. rewrite Hwt. now destruct d.
  - intros fuel w w1 Hlook. cbn [check_inbox].
    rewrite check_inbox_poll, poll_step, Hlook. reflexivity.
  - intros fuel. cbn [check_inbox]. rewrite check_inbox_poll.
    generalize (entered filters_only start). generalize (Fin 0).
    induction fuel as [|fuel IH]; intros d w; [reflexivity|].
    rewrite poll_step.
    change (@_get_recent_email test_node empty_mailbox filters_only w)
      with (@Return (list Email.t) []
              (record (CallSearch (_init_query filters_only) None)
                 (record CallAuthorize w))).
    cbn [wait_time_sec max_wait_time_sec filters_only to_number].
    replace (num_ge (num_add d NaN) NaN) with false by now destruct d.
    rewrite IH. reflexivity.
  - intros fuel. eexists. split; [vm_compute; reflexivity | reflexivity].
Qed.

End Fields.

Lemma optional_fields_follow_flags_witness :
  exists emails,
    Forall (optional_fields (with_body (polling 1 10))) emails
    /\ emails <> [].
Proof.
  eexists. split.
  - refine (proj1 (@optional_fields_follow_flags test_node
                     (mailbox_after 0 [order_message])
                     (with_body (polling 1 10)) _) _).
    left. exists start. eexists. vm_compute. reflexivity.
  - discriminate.
Defined.

Lemma check_inbox_defaults_need_omission_witness :
  @poll test_node empty_mailbox 1 filters_only (Fin 0) start
  = @poll test_node empty_mailbox 0 filters_only NaN
      (record (CallSleep NaN)
         (logged (LogNotFound None)
            (record (CallSearch (_init_query filters_only) None)
               (record CallAuthorize start)))).
Proof.
  refine (proj1 (proj2 (proj2 (proj2
            (@check_inbox_defaults_need_omission test_node empty_mailbox))))
            filters_only eq_refl eq_refl O (Fin 0) start _ _).
  reflexivity.
Defined.

(** ** Sample runs *)

Example init_query_sample :
  _init_query
    (mkOptions (Some "me@example.com") None (Some "Order") (Some 2499)
       (Some 1500) None false false None None)
  = ("to:" ++ Js.str1 Js.dquote ++ "me@example.com" ++ Js.str1 Js.dquote
     ++ " subject:(Order) after:2 before:2")%string.
Proof. vm_compute. reflexivity. Qed.

Example reply_subject_prefixed :
  reply_subject (Some "Order Confirmation") = "Re: Order Confirmation"%string.
Proof. reflexivity. Qed.

Example reply_subject_kept :
  reply_subject (Some "re: Order Confirmation")
  = "re: Order Confirmation"%string.
Proof. reflexivity. Qed.

Example encode_hello : Base64.encode "hello" = "aGVsbG8="%string.
Proof. reflexivity. Qed.

Example single_part_plain :
  @extract_body test_node (text_part "text/plain" "aGVsbG8=") start
  = Return (Email.mkBody EmptyString "hello") start.
Proof. vm_compute. reflexivity. Qed.

Example message_id_fallback :
  exists w,
    @get_messages test_node (mailbox_after 0 [order_message]) (polling 1 10)
      start
    = Return
        (Some [Email.mk (Some "shop@example.com") (Some "Order Confirmation")
                 (Some "me@example.com") 1700000000000 (Some "thread-1")
                 (Some "<order-1@example.com>") None None]) w.
Proof. eexists. vm_compute. reflexivity. Qed.

(** With the defaults (interval 30, maximum 30) one empty search uses up
    the budget: the loop adds the interval before it compares. *)
Example default_options_search_once :
  exists w,
    @check_inbox test_node empty_mailbox 1 Omitted start = Return None w
    /\ searches (calls w) = 1%nat /\ sleeps (calls w) = [].
Proof. eexists. split; [vm_compute; reflexivity|]. split; reflexivity. Qed.

(** * Further properties of the code *)

(** ** [_get_header] *)

Lemma get_header_none name headers :
  _get_header name headers = None
  <-> forall h, In h headers -> Raw.name h <> name.
Proof.
  unfold _get_header.
  destruct (find (fun h => (Raw.name h =? name)%string) headers) as [h|] eqn:E.
  - split; [discriminate|]. intros H. apply find_some in E as [Hin Hname].
    apply String.eqb_eq in Hname. now destruct (H h Hin).
  - split; [|reflexivity]. intros _ h Hin Hname.
    apply (find_none _ _ E) in Hin. apply String.eqb_neq in Hin. contradiction.
Qed.

(** X1. [_get_header] gives the value of the first header whose name is
    exactly the given one, whatever follows it, and [undefined] exactly when
    no header has that name. *)
Theorem get_header_first_match
    (name : string) (before after : list Raw.Header) (h : Raw.Header) :
  Raw.name h = name ->
  (forall x, In x before -> Raw.name x <> name) ->
  _get_header name (before ++ h :: after) = Some (Raw.value h)
  /\ (forall headers,
        _get_header name headers = None
        <-> forall x, In x headers -> Raw.name x <> name).
Proof.
  intros Hname Hbefore. split; [|intros headers; apply get_header_none].
  unfold _get_header. induction before as [|x before IH]; cbn [app find].
  - rewrite (proj2 (String.eqb_eq _ _) Hname). reflexivity.
  - rewrite (proj2 (String.eqb_neq _ _) (Hbefore x (or_introl eq_refl))).
    apply IH. intros y Hy. apply Hbefore. now right.
Qed.

Lemma get_header_first_match_witness :
  _get_header "Subject"
    ([Raw.mkHeader "From" "a@example.com"; Raw.mkHeader "subject" "lower"]
     ++ Raw.mkHeader "Subject" "first"
        :: [Raw.mkHeader "Subject" "second"])
  = Some "first"%string.
Proof.
  refine (proj1 (get_header_first_match "Subject" _ _
                   (Raw.mkHeader "Subject" "first") eq_refl _)).
  intros x [<- | [<- | []]]; discriminate.
Defined.

(** ** [_get_recent_email] *)

Section LookupTrace.
Context {node : Node} {gmail : Gmail}.

Lemma extract_body_world payload w b w' :
  extract_body payload w = Return b w' -> w' = w.
Proof.
  unfold extract_body.
  destruct (negb (Raw.size (Raw.body payload) =? 0)).
  - destruct (Raw.mimeType payload =? "text/html")%string;
      destruct (buffer_from_base64 _); unfold ret, throw;
      intros H; inversion H; reflexivity.
  - unfold bind, defined. destruct (Raw.parts payload) as [ps|];
      [|unfold throw; intros H; inversion H].
    unfold ret at 1. destruct (walk_parts _ _ _) as [[e|x]|];
      unfold ret, throw; intros H; inversion H; reflexivity.
Qed.

Lemma normalise_world options m w e w' :
  normalise options m w = Return e w' ->
  w' = if include_attachments options
       then record (CallAttachments m) w else w.
Proof.
  unfold normalise, bind.
  destruct (include_body options).
  - destruct (extract_body (Raw.payload m) w) as [b w1|x w1|c w1|] eqn:Hb;
      try discriminate.
    apply extract_body_world in Hb as ->. unfold ret at 1.
    destruct (include_attachments options);
      [|unfold ret; intros H; inversion H; reflexivity].
    unfold answer. destruct (get_email_attachments _ _);
      unfold ret; intros H; inversion H; reflexivity.
  - unfold ret at 1. destruct (include_attachments options);
      [|unfold ret; intros H; inversion H; reflexivity].
    unfold answer. destruct (get_email_attachments _ _);
      unfold ret; intros H; inversion H; reflexivity.
Qed.

Lemma for_each_world options batch : forall acc w emails w',
  for_each options batch acc w = Return emails w' ->
  calls w'
  = (if include_attachments options
     then rev (map CallAttachments batch) else [])
    ++ calls w
  /\ console w' = console w.
Proof.
  induction batch as [|m rest IH]; intros acc w emails w'; cbn [for_each].
  - intros [= _ <-]. now destruct (include_attachments options).
  - unfold bind.
    destruct (normalise options m w) as [e w1|x w1|c w1|] eqn:Hm;
      try discriminate.
    intros Hrest. apply IH in Hrest as [Hcalls Hconsole].
    apply normalise_world in Hm. subst w1.
    rewrite Hcalls, Hconsole.
    destruct (include_attachments options); [|auto].
    cbn [map rev record calls console]. now rewrite <- app_assoc.
Qed.

Lemma lookup_calls
    (options : Options) (w w' : World) (emails : list Email.t) :
  _get_recent_email options w = Return emails w' ->
  exists batch,
    authorize (calls w) = None
    /\ get_recent_email (CallAuthorize :: calls w) (_init_query options)
         (label options) = inr batch
    /\ Forall2 fixed_fields batch emails
    /\ calls w'
       = (if include_attachments options
          then rev (map CallAttachments batch) else [])
         ++ CallSearch (_init_query options) (label options)
            :: CallAuthorize :: calls w
    /\ console w' = console w.
Proof.
  unfold _get_recent_email, bind, call_authorize.
  destruct (authorize (calls w)) as [code|] eqn:Hauth; [discriminate|].
  unfold answer. cbn [record calls].
  destruct (get_recent_email _ _ _) as [code|batch] eqn:Hsearch;
    [discriminate|].
  intros H. exists batch.
  destruct (for_each_world _ _ _ _ _ _ H) as [Hcalls Hconsole].
  apply for_each_fields in H as (new & -> & _ & Hfix).
  repeat split; auto.
Qed.

(** X3. A lookup that returns has authorised once and searched once, with
    the query of [_init_query] and the label of the options, and has then
    fetched the attachments of each message in turn when
    [include_attachments] is set and nothing otherwise: it has not slept,
    sent or logged. The emails are those of the raw batch, one for one and
    in the order of the service. *)
Theorem lookup_trace
    (options : Options) (w w' : World) (emails : list Email.t) :
  _get_recent_email options w = Return emails w' ->
  exists batch,
    authorize (calls w) = None
    /\ get_recent_email (CallAuthorize :: calls w) (_init_query options)
         (label options) = inr batch
    /\ Forall2 fixed_fields batch emails
    /\ calls w'
       = (if include_attachments options
          then rev (map CallAttachments batch) else [])
         ++ CallSearch (_init_query options) (label options)
            :: CallAuthorize :: calls w
    /\ console w' = console w.
Proof.
  intros Hrun.
  destruct (lookup_calls options w w' emails Hrun)
    as (batch & Hauth & Hsearch & Hfix & Hcalls & Hconsole).
  exists batch. repeat split; assumption.
Qed.

Lemma for_each_plain options batch : forall acc w,
  include_body options = false ->
  include_attachments options = false ->
  exists new,
    for_each options batch acc w = Return (acc ++ new) w
    /\ List.length new = List.length batch.
Proof.
  intros acc w Hbody Hatt. revert acc.
  induction batch as [|m rest IH]; intros acc; cbn [for_each].
  - exists []. now rewrite app_nil_r.
  - unfold bind, normalise. rewrite Hbody, Hatt. unfold bind, ret.
    destruct (IH (acc ++ [Email.mk (_get_header "From" (Raw.headers m))
                            (_get_header "Subject" (Raw.headers m))
                            (_get_header "Delivered-To" (Raw.headers m))
                            (Raw.internalDate m) (Raw.threadId m)
                            (Js.or_else
                               (_get_header "Message-ID" (Raw.headers m))
                               (_get_header "Message-Id" (Raw.headers m)))
                            None None]))
      as (new & Hrun & Hlen).
    eexists (_ :: new). rewrite Hrun, <- app_assoc. split; [reflexivity|].
    cbn. now rewrite Hlen.
Qed.

(** X4. For raw messages that have a payload with a list of headers (the
    list may be empty; body data, parts and threadId may be missing): without
    [include_body] and [include_attachments] none of them can make the lookup
    fail. Once the authorisation and the search have succeeded, the lookup
    returns one email per raw message. *)
Theorem plain_lookup_cannot_fail
    (options : Options) (w : World) (batch : list Raw.Message) :
  include_body options = false ->
  include_attachments options = false ->
  authorize (calls w) = None ->
  get_recent_email (CallAuthorize :: calls w) (_init_query options)
    (label options) = inr batch ->
  exists emails,
    _get_recent_email options w
    = Return emails
        (record (CallSearch (_init_query options) (label options))
           (record CallAuthorize w))
    /\ List.length emails = List.length batch.
Proof.
  intros Hbody Hatt Hauth Hsearch.
  unfold _get_recent_email, bind at 1, call_authorize. rewrite Hauth.
  unfold bind, answer. cbn [record calls]. rewrite Hsearch.
  destruct (for_each_plain options batch []
              (record (CallSearch (_init_query options) (label options))
                 (record CallAuthorize w)) Hbody Hatt)
    as (new & Hrun & Hlen).
  exists new. split; [exact Hrun | exact Hlen].
Qed.

(** X2. A message that has no Message-ID header, or an empty one, gets its
    [messageId] from the header Message-Id; a non-empty Message-ID wins over
    it. *)
Theorem message_id_resolution
    (options : Options) (m : Raw.Message) (w w' : World) (e : Email.t) :
  normalise options m w = Return e w' ->
  (Js.truthy (_get_header "Message-ID" (Raw.headers m)) = true ->
   Email.messageId e = _get_header "Message-ID" (Raw.headers m))
  /\ (Js.truthy (_get_header "Message-ID" (Raw.headers m)) = false ->
      Email.messageId e = _get_header "Message-Id" (Raw.headers m))
  /\ (forall before h after,
        Raw.headers m = before ++ h :: after ->
        Raw.name h = "Message-Id"%string ->
        (forall x, In x before ->
                   Raw.name x <> "Message-Id"%string
                   /\ Raw.name x <> "Message-ID"%string) ->
        (forall x, In x after -> Raw.name x <> "Message-ID"%string) ->
        Email.messageId e = Some (Raw.value h)).
Proof.
  intros Hrun. apply normalise_fields in Hrun as [_ (_ & _ & _ & _ & _ & Hid)].
  rewrite Hid. unfold Js.or_else. split; [|split].
  - now intros ->.
  - now intros ->.
  - intros before h after Hhs Hname Hbefore Hafter.
    assert (Hnone : _get_header "Message-ID" (Raw.headers m) = None).
    { apply get_header_none. rewrite Hhs. intros x Hx Hxn.
      apply in_app_or in Hx as [Hx | [<- | Hx]].
      - now apply (proj2 (Hbefore x Hx)).
      - rewrite Hname in Hxn. discriminate.
      - now apply (Hafter x Hx). }
    rewrite Hnone. cbn [Js.truthy]. rewrite Hhs.
    unfold _get_header. clear Hhs Hnone.
    induction before as [|x before IH]; cbn [app find].
    + rewrite (proj2 (String.eqb_eq _ _) Hname). reflexivity.
    + rewrite (proj2 (String.eqb_neq _ _)
                 (proj1 (Hbefore x (or_introl eq_refl)))).
      apply IH. intros y Hy. apply Hbefore. now right.
Qed.

End LookupTrace.

Lemma lookup_trace_witness :
  exists w' emails batch,
    @_get_recent_email test_node (mailbox_after 0 [order_message])
      (polling 1 10) start
    = Return emails w'
    /\ Forall2 fixed_fields batch emails
    /\ calls w'
       = [CallSearch (_init_query (polling 1 10)) (Some "INBOX"%string);
          CallAuthorize].
Proof.
  eassert (H : @_get_recent_email test_node (mailbox_after 0 [order_message])
                 (polling 1 10) start = Return _ _)
    by (vm_compute; reflexivity).
  destruct (@lookup_trace test_node (mailbox_after 0 [order_message])
              (polling 1 10) start _ _ H)
    as (batch & _ & _ & Hfix & Hcalls & _).
  eexists _, _, batch. split; [exact H|]. split; [exact Hfix|].
  exact Hcalls.
Defined.

Lemma plain_lookup_cannot_fail_witness :
  exists emails,
    @_get_recent_email test_node (mailbox_after 0 [hollow_message])
      (polling 1 10) start
    = Return emails
        (record (CallSearch (_init_query (polling 1 10)) (Some "INBOX"%string))
           (record CallAuthorize start))
    /\ List.length emails = 1%nat.
Proof.
  exact (@plain_lookup_cannot_fail test_node
           (mailbox_after 0 [hollow_message]) (polling 1 10) start
           [hollow_message] eq_refl eq_refl eq_refl eq_refl).
Defined.

Lemma message_id_resolution_witness :
  exists e,
    @normalise test_node (mailbox_after 0 [order_message]) (polling 1 10)
      order_message start = Return e start
    /\ Email.messageId e = Some "<order-1@example.com>"%string.
Proof.
  eassert (H : @normalise test_node (mailbox_after 0 [order_message])
                 (polling 1 10) order_message start = Return _ start)
    by (vm_compute; reflexivity).
  eexists. split; [exact H|].
  refine (proj2 (proj2
            (@message_id_resolution test_node
               (mailbox_after 0 [order_message]) (polling 1 10) order_message
               start start _ H))
            [Raw.mkHeader "Delivered-To" "me@example.com";
             Raw.mkHeader "From" "shop@example.com";
             Raw.mkHeader "Subject" "Order Confirmation"]
            (Raw.mkHeader "Message-Id" "<order-1@example.com>") []
            eq_refl eq_refl _ _).
  - intros x [<- | [<- | [<- | []]]]; split; discriminate.
  - intros x [].
Defined.

(** ** Counting calls *)

Lemma count_attachments kind batch :
  (forall m, kind (CallAttachments m) = false) ->
  filter kind (rev (map CallAttachments batch)) = [].
Proof.
  intros Hkind. induction batch as [|m rest IH]; [reflexivity|].
  cbn [map rev]. rewrite filter_app, IH. cbn [filter app].
  now rewrite Hkind.
Qed.

Lemma sleeps_attachments batch cs :
  sleeps (rev (map CallAttachments batch) ++ cs) = sleeps cs.
Proof.
  induction batch as [|m rest IH] using rev_ind; [reflexivity|].
  rewrite map_app, rev_app_distr. cbn [map rev app sleeps]. exact IH.
Qed.

Section Counting.
Context {node : Node} {gmail : Gmail}.

(** A lookup that returns makes one authorisation and one search. *)
Lemma lookup_counts options w emails w' :
  _get_recent_email options w = Return emails w' ->
  searches (calls w') = S (searches (calls w))
  /\ count is_authorize (calls w') = S (count is_authorize (calls w))
  /\ count is_send (calls w') = count is_send (calls w).
Proof.
  intros H. apply lookup_calls in H as (batch & _ & _ & _ & -> & _).
  unfold searches, count. rewrite !filter_app.
  destruct (include_attachments options);
    [rewrite !count_attachments by reflexivity|];
    cbn [filter app is_search is_authorize is_send List.length]; auto.
Qed.

Lemma idles_counts options n w d w' d' :
  idles options n w d w' d' ->
  searches (calls w') = (n + searches (calls w))%nat
  /\ count is_authorize (calls w') = (n + count is_authorize (calls w))%nat
  /\ List.length (sleeps (calls w')) = (n + List.length (sleeps (calls w)))%nat.
Proof.
  intros H. split; [|split].
  - induction H as [|n w d w1 w' d' Hlook _ _ IH]; [reflexivity|].
    rewrite IH. apply lookup_counts in Hlook as (Hs & _).
    unfold slept, record, logged. cbn [calls].
    unfold searches in *. cbn [filter is_search]. lia.
  - induction H as [|n w d w1 w' d' Hlook _ _ IH]; [reflexivity|].
    rewrite IH. apply lookup_counts in Hlook as (_ & Ha & _).
    unfold slept, record, logged. cbn [calls].
    unfold count in *. cbn [filter is_authorize]. lia.
  - rewrite (idles_sleeps _ _ _ _ _ _ H), length_app, repeat_length.
    reflexivity.
Qed.

(** X5. A call of [__check_inbox] that returns, with emails or with null,
    has searched once more than it has slept, and has authorised anew before
    every search. *)
Theorem poller_searches_once_more_than_it_sleeps
    (fuel : nat) (options : Options) (w0 wf : World)
    (result : option (list Email.t)) :
  __check_inbox fuel options w0 = Return result wf ->
  (searches (calls wf) + List.length (sleeps (calls w0))
   = S (searches (calls w0) + List.length (sleeps (calls wf))))%nat
  /\ (count is_authorize (calls wf) + searches (calls w0)
      = count is_authorize (calls w0) + searches (calls wf))%nat.
Proof.
  intros Hrun. rewrite check_inbox_poll in Hrun.
  destruct (poll fuel options (Fin 0) (entered options w0))
    as [a wa|e wa|c wa|] eqn:Hpoll; try discriminate.
  injection Hrun as -> ->.
  destruct (poll_ends _ _ _ _ _ Hpoll ltac:(discriminate))
    as (k & v & d' & _ & Hidle & Hlast & Hcond).
  apply idles_counts in Hidle as (Hs & Ha & Hz).
  cbn [entered logged calls] in Hs, Ha, Hz.
  rewrite poll_step in Hlast.
  pose proof (lookup_sleeps options v) as Hquiet.
  destruct (_get_recent_email options v) as [emails v1|x v1|c v1|] eqn:Hv;
    try (destruct emails; discriminate); try discriminate.
  apply lookup_counts in Hv as (Hs1 & Ha1 & _).
  assert (Hwf : calls wf = calls v1).
  { destruct emails as [|e emails].
    - rewrite Hcond in Hlast. now injection Hlast as _ ->.
    - now injection Hlast as _ ->. }
  rewrite Hwf, Hs1, Ha1, Hquiet, Hs, Ha, Hz. lia.
Qed.

(** X6. [check_inbox] never returns an empty array: its result is null or
    a non-empty sequence of emails. *)
Theorem check_inbox_result_not_empty
    (fuel : nat) (options : Arg) (w w' : World) (emails : list Email.t) :
  check_inbox fuel options w = Return (Some emails) w' ->
  emails <> [].
Proof.
  assert (H : forall o,
             __check_inbox fuel o w = Return (Some emails) w' ->
             emails <> []).
  { intros o Hrun. rewrite check_inbox_poll in Hrun.
    destruct (poll fuel o (Fin 0) (entered o w))
      as [a wa|e wa|c wa|] eqn:Hpoll; try discriminate.
    injection Hrun as -> ->.
    destruct (poll_ends _ _ _ _ _ Hpoll ltac:(discriminate))
      as (k & v & d' & _ & _ & Hlast & Hcond).
    rewrite poll_step in Hlast.
    destruct (_get_recent_email o v) as [[|x xs] v1|x v1|c v1|];
      try discriminate.
    - rewrite Hcond in Hlast. discriminate.
    - injection Hlast as -> _. discriminate. }
  destruct options as [| | |o]; cbn [check_inbox]; try apply H.
  - unfold bind, log. discriminate.
  - discriminate.
Qed.

Lemma idles_within_budget options wt mx n w d0 w' d' :
  wait_time_sec options = Some wt ->
  max_wait_time_sec options = Some mx ->
  idles options n w (Fin d0) w' d' ->
  (1 <= n)%nat ->
  d0 + Z.of_nat n * wt < mx.
Proof.
  intros Hwt Hmx H. remember (Fin d0) as d eqn:Hd. revert d0 Hd.
  induction H as [|n w d w1 w' d' Hlook Hge Hrest IH]; intros d0 -> Hn;
    [lia|].
  rewrite Hwt, Hmx in Hge. cbn [to_number num_add] in Hge.
  apply num_ge_fin_false in Hge.
  destruct n as [|n]; [lia|].
  rewrite Hwt in IH. specialize (IH _ eq_refl ltac:(lia)). lia.
Qed.

(** X7. For an interval and a maximum that are whole numbers of seconds
    below 2^52 in size, which the numbers of the code add without rounding:
    when [__check_inbox] gives up, the time it has slept is below the
    maximum and one more interval would have reached it: with [k] sleeps,
    [k] intervals are less than the maximum (for [k] at least 1) and [k + 1]
    intervals are not. *)
Theorem poller_sleeps_less_than_the_maximum
    (fuel : nat) (options : Options) (wt mx : Z) (w0 wf : World) :
  wait_time_sec options = Some wt ->
  max_wait_time_sec options = Some mx ->
  Z.abs wt < 2 ^ 52 -> Z.abs mx < 2 ^ 52 ->
  __check_inbox fuel options w0 = Return None wf ->
  exists k,
    sleeps (calls wf) = repeat (Fin (wt * 1000)) k ++ sleeps (calls w0)
    /\ ((1 <= k)%nat -> Z.of_nat k * wt < mx)
    /\ mx <= (Z.of_nat k + 1) * wt.
Proof.
  intros Hwt Hmx _ _ Hrun. rewrite check_inbox_poll in Hrun.
  destruct (poll fuel options (Fin 0) (entered options w0))
    as [a wa|e wa|c wa|] eqn:Hpoll; try discriminate.
  injection Hrun as -> ->.
  destruct (poll_ends _ _ _ _ _ Hpoll ltac:(discriminate))
    as (k & v & d' & _ & Hidle & Hlast & Hcond).
  exists k. rewrite poll_step in Hlast.
  pose proof (lookup_sleeps options v) as Hquiet.
  destruct (_get_recent_email options v) as [[|x xs] v1|x v1|c v1|];
    try discriminate.
  rewrite Hcond in Hlast. injection Hlast as ->.
  split; [|split].
  - cbn [logged calls].
    rewrite Hquiet, (idles_sleeps _ _ _ _ _ _ Hidle), Hwt. reflexivity.
  - intros Hk.
    pose proof (idles_within_budget _ _ _ _ _ _ _ _ Hwt Hmx Hidle Hk). lia.
  - rewrite (idles_accumulates _ _ _ _ _ _ _ Hwt Hidle), Hwt, Hmx in Hcond.
    cbn [to_number num_add] in Hcond. apply num_ge_fin in Hcond. lia.
Qed.

(** X8. With an interval of zero (or less) and a positive maximum the
    poller never gives up: as long as the mailbox stays empty no amount of
    iterations ends the call. *)
Theorem poller_busy_polls_on_zero_interval
    (options : Options) (wt mx : Z) :
  wait_time_sec options = Some wt ->
  max_wait_time_sec options = Some mx ->
  wt <= 0 -> 0 < mx ->
  (forall v, exists v1, _get_recent_email options v = Return [] v1) ->
  forall fuel w, __check_inbox fuel options w = OutOfFuel.
Proof.
  intros Hwt Hmx Hneg Hpos Hempty fuel w.
  rewrite check_inbox_poll.
  enough (H : forall d v, d <= 0 -> poll fuel options (Fin d) v = OutOfFuel)
    by (rewrite H; [reflexivity | lia]).
  induction fuel as [|fuel IH]; intros d v Hd; [reflexivity|].
  rewrite poll_step. destruct (Hempty v) as [v1 ->].
  rewrite Hwt, Hmx. cbn [to_number num_add].
  rewrite (proj2 (num_ge_fin_false (d + wt) mx)) by lia.
  apply IH. lia.
Qed.

(** X9. [get_messages] never throws and never leaves the loop of the
    caller: either the lookup returns and [get_messages] returns its emails
    unchanged, without logging, or the lookup throws and [get_messages]
    returns [undefined] after logging the error. *)
Theorem get_messages_never_throws (options : Options) (w : World) :
  (exists emails w',
     _get_recent_email options w = Return emails w'
     /\ get_messages options w = Return (Some emails) w'
     /\ console w' = console w)
  \/ (exists err w1,
        _get_recent_email options w = Throw err w1
        /\ get_messages options w = Return None (logged (LogError err) w1)).
Proof.
  pose proof (lookup_console options w) as Hconsole.
  unfold get_messages, try_catch, bind.
  destruct (lookup_terminates options w) as [(emails & w' & H) | (e & w' & H)];
    rewrite H in *; [left | right].
  - exists emails, w'. auto.
  - exists e, w'. auto.
Qed.

End Counting.

Lemma poller_searches_once_more_than_it_sleeps_witness :
  exists wf,
    (searches (calls wf) + List.length (sleeps (calls start))
     = S (searches (calls start) + List.length (sleeps (calls wf))))%nat
    /\ searches (calls wf) = 3%nat.
Proof.
  eassert (H : @__check_inbox test_node (mailbox_after 2 [order_message]) 3
                 (polling 1 10) start = Return _ _)
    by (vm_compute; reflexivity).
  eexists. split.
  - exact (proj1 (@poller_searches_once_more_than_it_sleeps test_node
                    (mailbox_after 2 [order_message]) 3 (polling 1 10)
                    start _ _ H)).
  - reflexivity.
Defined.

Lemma check_inbox_result_not_empty_witness :
  exists emails : list Email.t,
    List.length emails = 1%nat /\ emails <> [].
Proof.
  eassert (H : @check_inbox test_node (mailbox_after 2 [order_message]) 3
                 (Object (polling 1 10)) start = Return (Some _) _)
    by (vm_compute; reflexivity).
  eexists. split; [|exact (@check_inbox_result_not_empty test_node
                             (mailbox_after 2 [order_message]) 3
                             (Object (polling 1 10)) start _ _ H)].
  reflexivity.
Defined.

Lemma poller_sleeps_less_than_the_maximum_witness :
  exists wf k,
    sleeps (calls wf) = repeat (Fin (5 * 1000)) k ++ sleeps (calls start)
    /\ ((1 <= k)%nat -> Z.of_nat k * 5 < 12)
    /\ 12 <= (Z.of_nat k + 1) * 5.
Proof.
  eassert (H : @__check_inbox test_node empty_mailbox 3 (polling 5 12) start
               = Return None _)
    by (vm_compute; reflexivity).
  eexists.
  exact (@poller_sleeps_less_than_the_maximum test_node empty_mailbox 3
           (polling 5 12) 5 12 start _ eq_refl eq_refl eq_refl eq_refl H).
Defined.

Lemma poller_busy_polls_on_zero_interval_witness :
  @__check_inbox test_node empty_mailbox 1000 (polling 0 10) start
  = OutOfFuel.
Proof.
  refine (@poller_busy_polls_on_zero_interval test_node empty_mailbox
            (polling 0 10) 0 10 eq_refl eq_refl _ _ _ 1000%nat start).
  - lia.
  - lia.
  - intros v. eexists. reflexivity.
Defined.

(** ** The walk, again *)

Lemma in_forest_flat_map p ps :
  in_forest p (flat_map children ps) -> in_forest p ps.
Proof.
  intros H. inversion H as [? Hin | q ? Hq Hbelow]; subst.
  - apply in_flat_map in Hin as (x & Hx & Hp).
    eapply in_forest_below; [exact Hx | now apply in_forest_here].
  - apply in_flat_map in Hq as (x & Hx & Hq).
    eapply in_forest_below; [exact Hx|].
    eapply in_forest_below; eassumption.
Qed.

Lemma levels_in_forest depth : forall ps p,
  In p (levels depth ps) -> in_forest p ps.
Proof.
  induction depth as [|depth IH]; intros ps p Hin; [destruct Hin|].
  destruct ps as [|x ps]; [destruct Hin|].
  cbn [levels] in Hin. apply in_app_or in Hin as [Hin | Hin].
  - now apply in_forest_here.
  - apply in_forest_flat_map. now apply IH.
Qed.

Lemma levels_length depth : forall ps,
  (forest_size ps <= depth)%nat ->
  List.length (levels depth ps) = forest_size ps.
Proof.
  induction depth as [|depth IH]; intros ps Hd.
  - now rewrite (forest_size_0 ps) by lia.
  - destruct ps as [|x ps]; [reflexivity|].
    pose proof (forest_size_children (x :: ps)) as Hsize.
    cbn [levels]. rewrite length_app, IH; [lia|].
    cbn [List.length] in Hsize. lia.
Qed.

Lemma visited_iff_in_forest ps p :
  In p (worklist_order (forest_size ps) ps) <-> in_forest p ps.
Proof.
  rewrite (worklist_order_levels (forest_size ps)) by lia.
  split; [apply levels_in_forest|]. apply in_forest_levels. lia.
Qed.

Section WalkEdges.
Context {node : Node} {gmail : Gmail}.

Lemma walk_parts_fails : forall fuel queue email_body,
  (forest_size queue <= fuel)%nat ->
  (exists p, In p (worklist_order fuel queue) /\ is_text p = true
             /\ Raw.data (Raw.body p) = None) ->
  walk_parts fuel queue email_body
  = Some (inl (TypeError "The first argument must be of type string")).
Proof.
  induction fuel as [|fuel IH]; intros queue b Hsize (p & Hin & Htext & Hdata).
  - rewrite (forest_size_0 queue) in Hin by lia. destruct Hin.
  - destruct queue as [|x queue]; [destruct Hin|].
    rewrite forest_size_cons in Hsize.
    assert (Hnext : (forest_size (queue ++ children x) <= fuel)%nat)
      by (rewrite forest_size_app; lia).
    cbn [worklist_order] in Hin. cbn [walk_parts].
    replace (match Raw.parts x with
             | Some nested => queue ++ nested
             | None => queue
             end) with (queue ++ children x)
      by (unfold children; destruct (Raw.parts x);
          [reflexivity | apply app_nil_r]).
    unfold buffer_from_base64.
    destruct Hin as [-> | Hin].
    + unfold is_text, has_type in Htext. rewrite Hdata.
      destruct (Raw.mimeType p =? "text/plain")%string; [reflexivity|].
      cbn [orb] in Htext. now rewrite Htext.
    + assert (Hbad : exists q,
                 In q (worklist_order fuel (queue ++ children x))
                 /\ is_text q = true /\ Raw.data (Raw.body q) = None)
        by (exists p; auto).
      destruct (Raw.mimeType x =? "text/plain")%string;
        [|destruct (Raw.mimeType x =? "text/html")%string];
        try (destruct (Raw.data (Raw.body x)); [|reflexivity]);
        now apply IH.
Qed.

Lemma in_forest_requeue x p queue :
  in_forest x (queue ++ children p) -> in_forest x (p :: queue).
Proof.
  intros H. inversion H as [? Hin | y ? Hy Hbelow]; subst.
  - apply in_app_or in Hin as [Hin | Hin].
    + apply in_forest_here. now right.
    + apply (in_forest_below x p); [now left | now apply in_forest_here].
  - apply in_app_or in Hy as [Hy | Hy].
    + apply (in_forest_below x y); [now right | assumption].
    + apply (in_forest_below x p); [now left|].
      apply (in_forest_below x y); assumption.
Qed.

(** With less fuel than there are parts the loop is still running. *)
Lemma walk_parts_needs : forall fuel queue email_body,
  (forall p, in_forest p queue -> is_text p = true ->
             Raw.data (Raw.body p) <> None) ->
  (fuel < forest_size queue)%nat ->
  walk_parts fuel queue email_body = None.
Proof.
  induction fuel as [|fuel IH]; intros queue b Hdata Hsize.
  - destruct queue as [|p queue]; [cbn in Hsize; lia | reflexivity].
  - destruct queue as [|p queue]; [cbn in Hsize; lia|].
    rewrite forest_size_cons in Hsize.
    assert (Hnext : (fuel < forest_size (queue ++ children p))%nat)
      by (rewrite forest_size_app; lia).
    assert (Hrest : forall q, in_forest q (queue ++ children p) ->
                              is_text q = true ->
                              Raw.data (Raw.body q) <> None)
      by (intros q Hq; apply Hdata; now apply in_forest_requeue).
    specialize (Hdata p (in_forest_here p (p :: queue) (or_introl eq_refl))).
    cbn [walk_parts].
    replace (match Raw.parts p with
             | Some nested => queue ++ nested
             | None => queue
             end) with (queue ++ children p)
      by (unfold children; destruct (Raw.parts p);
          [reflexivity | apply app_nil_r]).
    unfold buffer_from_base64. unfold is_text, has_type in Hdata.
    destruct (Raw.mimeType p =? "text/plain")%string.
    + destruct (Raw.data (Raw.body p)) as [d|];
        [now apply IH | now destruct Hdata].
    + destruct (Raw.mimeType p =? "text/html")%string.
      * destruct (Raw.data (Raw.body p)) as [d|];
          [now apply IH | now destruct Hdata].
      * now apply IH.
Qed.

(** X10. When the text parts carry their data, the loop of the multipart
    walk runs exactly once for each part of the MIME tree, at every depth:
    it ends after as many iterations as the tree has parts and not before,
    and what it returns is the result of visiting, one after the other, a
    sequence that holds exactly the parts of the tree and has as many
    entries as the tree has parts. *)
Theorem walk_visits_each_part_once
    (ps : list Raw.Part) (email_body : Email.Body) :
  (forall p, in_forest p ps -> is_text p = true ->
             Raw.data (Raw.body p) <> None) ->
  (forall fuel,
     walk_parts fuel ps email_body <> None <-> (forest_size ps <= fuel)%nat)
  /\ exists order,
       walk_parts (forest_size ps) ps email_body
       = Some (inr (fold_left visit order email_body))
       /\ (forall p, In p order <-> in_forest p ps)
       /\ List.length order = forest_size ps.
Proof.
  intros Hdata. split.
  - intros fuel. split.
    + intros Hsome. destruct (le_lt_dec (forest_size ps) fuel) as [H | H];
        [exact H|].
      now rewrite (walk_parts_needs fuel ps email_body Hdata H) in Hsome.
    + apply walk_parts_total.
  - exists (worklist_order (forest_size ps) ps). split; [|split].
    + apply walk_parts_visits; [lia|].
      intros p Hp. apply Hdata. now apply visited_iff_in_forest.
    + intros p. apply visited_iff_in_forest.
    + rewrite (worklist_order_levels (forest_size ps)) by lia.
      apply levels_length. lia.
Qed.

(** X11. With [include_body] set, a multipart message that holds, at any
    depth, a text/plain or text/html part without inline data (a text file
    sent as an attachment, say) cannot be decoded: a TypeError is raised and
    no email is built for it. *)
Theorem text_part_without_data_fails
    (options : Options) (m : Raw.Message) (ps : list Raw.Part) (p : Raw.Part)
    (w : World) :
  include_body options = true ->
  Raw.size (Raw.body (Raw.payload m)) = 0 ->
  Raw.parts (Raw.payload m) = Some ps ->
  in_forest p ps -> is_text p = true -> Raw.data (Raw.body p) = None ->
  extract_body (Raw.payload m) w
  = Throw (TypeError "The first argument must be of type string") w
  /\ normalise options m w
     = Throw (TypeError "The first argument must be of type string") w.
Proof.
  intros Hbody Hsize Hparts Hin Htext Hdata.
  assert (Hextract : extract_body (Raw.payload m) w
                     = Throw (TypeError
                                "The first argument must be of type string") w).
  { unfold extract_body. rewrite Hsize, Hparts. cbn [Z.eqb negb]. run.
    rewrite walk_parts_fails; [reflexivity | lia |].
    exists p. split; [|auto].
    now apply visited_iff_in_forest. }
  split; [exact Hextract|].
  unfold normalise. rewrite Hbody. unfold bind. now rewrite Hextract.
Qed.

(** X12. A multipart message without any text/plain or text/html part, at
    any depth, is decoded to a body whose [text] and [html] are both
    empty. *)
Theorem body_without_text_parts_is_empty
    (payload : Raw.Part) (ps : list Raw.Part) (w : World) :
  Raw.size (Raw.body payload) = 0 ->
  Raw.parts payload = Some ps ->
  (forall p, in_forest p ps -> is_text p = false) ->
  extract_body payload w
  = Return (Email.mkBody EmptyString EmptyString) w.
Proof.
  intros Hsize Hparts Hnone.
  assert (Hno : forall p, In p (breadth_first ps) -> is_text p = false)
    by (intros p Hp; apply Hnone; now apply levels_in_forest in Hp).
  rewrite (extract_body_multipart payload ps w Hsize Hparts)
    by (intros p Hp Ht; rewrite (Hno p Hp) in Ht; discriminate).
  assert (Hfind : forall mime,
             (mime = "text/plain" \/ mime = "text/html")%string ->
             last_of_type mime (breadth_first ps) = None).
  { intros mime Hmime. unfold last_of_type.
    destruct (find (has_type mime) (rev (breadth_first ps))) as [q|] eqn:E;
      [exfalso | reflexivity].
    apply find_some in E as [Hq Ht]. apply in_rev in Hq.
    specialize (Hno q Hq). unfold is_text in Hno.
    apply orb_false_elim in Hno as [Hp Hh].
    destruct Hmime as [-> | ->]; congruence. }
  unfold decoded_last. rewrite !Hfind by auto. reflexivity.
Qed.

End WalkEdges.

Lemma walk_visits_each_part_once_witness :
  forest_size (children (Raw.payload order_message)) = 3%nat
  /\ @walk_parts test_node 2 (children (Raw.payload order_message))
       (Email.mkBody EmptyString EmptyString) = None
  /\ @walk_parts test_node 3 (children (Raw.payload order_message))
       (Email.mkBody EmptyString EmptyString) <> None.
Proof.
  assert (Hdata : forall p,
             in_forest p (children (Raw.payload order_message)) ->
             is_text p = true -> Raw.data (Raw.body p) <> None).
  { intros p Hp Ht. apply visited_iff_in_forest in Hp. vm_compute in Hp.
    destruct Hp as [<- | [<- | [<- | []]]];
      [vm_compute in Ht; discriminate | discriminate | discriminate]. }
  destruct (@walk_visits_each_part_once test_node
              (children (Raw.payload order_message))
              (Email.mkBody EmptyString EmptyString) Hdata) as [Hfuel _].
  split; [reflexivity|]. split; [reflexivity|].
  apply (proj2 (Hfuel 3%nat)). vm_compute. lia.
Defined.

Lemma text_part_without_data_fails_witness :
  @normalise test_node (mailbox_after 0 [attached_text_message])
    (with_body (polling 1 10)) attached_text_message start
  = Throw (TypeError "The first argument must be of type string") start.
Proof.
  refine (proj2
            (@text_part_without_data_fails test_node
               (mailbox_after 0 [attached_text_message])
               (with_body (polling 1 10)) attached_text_message _
               (Raw.mkPart "text/plain" (Raw.mkBody 120 None) None) start
               eq_refl eq_refl eq_refl _ eq_refl eq_refl)).
  apply in_forest_here. right. left. reflexivity.
Defined.

Lemma body_without_text_parts_is_empty_witness :
  @extract_body test_node (Raw.payload image_message) start
  = Return (Email.mkBody EmptyString EmptyString) start.
Proof.
  refine (@body_without_text_parts_is_empty test_node
            (Raw.payload image_message) _ start eq_refl eq_refl _).
  intros p Hp.
  apply visited_iff_in_forest in Hp.
  vm_compute in Hp. destruct Hp as [<- | [<- | []]]; reflexivity.
Defined.

(** ** [reply_to_email], again *)

(** X13. The subject of a reply always starts with Re: (in any letter
    case); a subject that already does is kept as it is, so replying to a
    reply adds no second prefix. *)
Theorem reply_subject_idempotent (originalSubject : option string) :
  starts_with_re (reply_subject originalSubject) = true
  /\ reply_subject (Some (reply_subject originalSubject))
     = reply_subject originalSubject
  /\ (starts_with_re (Js.show originalSubject) = true ->
      reply_subject originalSubject = Js.show originalSubject)
  /\ (starts_with_re (Js.show originalSubject) = false ->
      reply_subject originalSubject
      = ("Re: " ++ Js.show originalSubject)%string).
Proof.
  assert (Hstarts : starts_with_re (reply_subject originalSubject) = true).
  { unfold reply_subject.
    destruct (starts_with_re (Js.show originalSubject)) eqn:E;
      [exact E | reflexivity]. }
  split; [exact Hstarts|]. split; [|split].
  - unfold reply_subject at 1. cbn [Js.show]. now rewrite Hstarts.
  - intros H. unfold reply_subject. now rewrite H.
  - intros H. unfold reply_subject. now rewrite H.
Qed.

Section ReplySends.
Context {node : Node} {gmail : Gmail}.

Lemma extract_body_final payload w w' :
  final (extract_body payload w) = Some w' -> w' = w.
Proof.
  pose proof (remote_only_extract_body payload (calls w) (console w))
    as [_ Hend].
  destruct w as [cs c]. cbn [calls console] in Hend.
  destruct (extract_body payload (mkWorld cs c)) as [b w1|e w1|code w1|] eqn:E;
    try contradiction; cbn [final]; intros [= <-].
  - now apply extract_body_world in E.
  - revert E. unfold extract_body.
    destruct (negb (Raw.size (Raw.body payload) =? 0)).
    + destruct (Raw.mimeType payload =? "text/html")%string;
        destruct (buffer_from_base64 _); unfold ret, throw;
        intros H; inversion H; reflexivity.
    + unfold bind, defined. destruct (Raw.parts payload) as [ps|];
        [|unfold throw; intros H; inversion H; reflexivity].
      unfold ret at 1. destruct (walk_parts _ _ _) as [[x|x]|];
        unfold ret, throw; intros H; inversion H; reflexivity.
Qed.

Lemma normalise_final options m w w' :
  final (normalise options m w) = Some w' ->
  w' = w \/ w' = record (CallAttachments m) w.
Proof.
  unfold normalise, bind.
  destruct (include_body options).
  - pose proof (extract_body_final (Raw.payload m) w) as Hb.
    destruct (extract_body (Raw.payload m) w) as [b w1|e w1|code w1|];
      cbn [final] in *;
      try (intros [= <-]; left; now apply Hb);
      try discriminate.
    rewrite (Hb w1 eq_refl). unfold ret at 1.
    destruct (include_attachments options);
      [|cbn; intros [= <-]; now left].
    unfold answer. destruct (get_email_attachments _ _);
      cbn; intros [= <-]; now right.
  - unfold ret at 1. destruct (include_attachments options);
      [|cbn; intros [= <-]; now left].
    unfold answer. destruct (get_email_attachments _ _);
      cbn; intros [= <-]; now right.
Qed.

Lemma for_each_final_sends options batch : forall acc w w',
  final (for_each options batch acc w) = Some w' ->
  count is_send (calls w') = count is_send (calls w).
Proof.
  induction batch as [|m rest IH]; intros acc w w'; cbn [for_each].
  - cbn. now intros [= <-].
  - unfold bind. pose proof (normalise_final options m w) as Hm.
    destruct (normalise options m w) as [e w1|e w1|code w1|];
      cbn [final] in *; try discriminate.
    + intros H. apply IH in H. rewrite H.
      destruct (Hm w1 eq_refl) as [-> | ->]; reflexivity.
    + intros [= <-]. destruct (Hm w1 eq_refl) as [-> | ->]; reflexivity.
    + intros [= <-]. destruct (Hm w1 eq_refl) as [-> | ->]; reflexivity.
Qed.

(** A lookup sends nothing, however it ends. *)
Lemma lookup_final_sends options w w' :
  final (_get_recent_email options w) = Some w' ->
  count is_send (calls w') = count is_send (calls w).
Proof.
  unfold _get_recent_email, bind, call_authorize.
  destruct (authorize (calls w)); [cbn; now intros [= <-]|].
  unfold answer. destruct (get_recent_email _ _ _) as [code|batch];
    [cbn; now intros [= <-]|].
  intros H. apply for_each_final_sends in H. rewrite H. reflexivity.
Qed.

(** X14. [reply_to_email] asks the service to send at most one message,
    and only after the lookup has returned a first email that has its from,
    subject and threadId: then the message sent is the encoded reply to that
    email, in its thread. When the lookup fails, finds nothing or finds an
    unusable email, nothing is sent. *)
Theorem reply_sends_only_to_a_usable_target
    (replyContent : string) (options : Options) (w w' : World) :
  final (reply_to_email replyContent options w) = Some w' ->
  (count is_send (calls w') = count is_send (calls w)
   \/ count is_send (calls w') = S (count is_send (calls w)))
  /\ (count is_send (calls w') = S (count is_send (calls w)) ->
      exists e rest w1,
        _get_recent_email options w = Return (e :: rest) w1
        /\ ~ missing (Email.from e) /\ ~ missing (Email.subject e)
        /\ ~ missing (Email.threadId e)
        /\ calls w'
           = CallSend (encode_message (reply_message e replyContent))
               (Email.threadId e)
             :: CallAuthorize :: calls w1).
Proof.
  intros Hend. pose proof (lookup_final_sends options w) as Hlook.
  assert (Hsame : forall w1,
             final (_get_recent_email options w) = Some w1 ->
             calls w' = calls w1 \/ calls w' = CallAuthorize :: calls w1 ->
             (count is_send (calls w') = count is_send (calls w)
              \/ count is_send (calls w') = S (count is_send (calls w)))
             /\ (count is_send (calls w') = S (count is_send (calls w)) ->
                 exists e rest w2,
                   _get_recent_email options w = Return (e :: rest) w2
                   /\ ~ missing (Email.from e) /\ ~ missing (Email.subject e)
                   /\ ~ missing (Email.threadId e)
                   /\ calls w'
                      = CallSend
                          (encode_message (reply_message e replyContent))
                          (Email.threadId e)
                        :: CallAuthorize :: calls w2)).
  { intros w1 Hw1 Hcalls. apply Hlook in Hw1.
    assert (E : count is_send (calls w') = count is_send (calls w))
      by (destruct Hcalls as [-> | ->]; exact Hw1).
    split; [now left | lia]. }
  destruct (_get_recent_email options w) as [emails w1|x w1|c w1|] eqn:Hrun;
    try (unfold reply_to_email, bind in Hend; rewrite Hrun in Hend;
         cbn [final] in Hend; injection Hend as <-;
         apply (Hsame w1 eq_refl); now left);
    [|unfold reply_to_email, bind in Hend; rewrite Hrun in Hend;
      discriminate].
  destruct emails as [|e rest];
    [unfold reply_to_email, bind in Hend; rewrite Hrun in Hend;
     cbn [final throw] in Hend; injection Hend as <-;
     apply (Hsame w1 eq_refl); now left|].
  destruct (Js.truthy (Email.from e)) eqn:Hf;
  destruct (Js.truthy (Email.subject e)) eqn:Hs;
  destruct (Js.truthy (Email.threadId e)) eqn:Ht;
    try (unfold reply_to_email, bind in Hend;
         rewrite Hrun, Hf, Hs, Ht in Hend;
         cbn [final throw negb orb] in Hend; injection Hend as <-;
         apply (Hsame w1 eq_refl); now left).
  destruct (reply_after_lookup replyContent _ _ _ _ _ Hrun Hf Hs Ht)
    as (w2 & Hw2 & E).
  rewrite E in Hend. destruct (authorize (calls w1)).
  - cbn [final] in Hend. injection Hend as <-.
    apply (Hsame w1 eq_refl). now right.
  - assert (Hcalls : calls w'
                     = CallSend (encode_message (reply_message e replyContent))
                         (Email.threadId e) :: CallAuthorize :: calls w1).
    { unfold answer in Hend.
      destruct (messages_send _ _ _); cbn [final] in Hend;
        injection Hend as <-; cbn [record calls]; now rewrite Hw2. }
    specialize (Hlook w1 eq_refl).
    assert (Hcount : count is_send (calls w') = S (count is_send (calls w)))
      by (rewrite Hcalls; unfold count in *; cbn [filter is_send List.length];
          now rewrite Hlook).
    split; [now right|]. intros _. exists e, rest, w1.
    unfold missing. rewrite Hf, Hs, Ht.
    repeat split; try discriminate. exact Hcalls.
Qed.

End ReplySends.

Lemma reply_sends_only_to_a_usable_target_witness :
  exists w',
    final (@reply_to_email test_node (mailbox_after 0 [untitled_message])
             "Thanks!" (polling 5 12) start) = Some w'
    /\ (count is_send (calls w') = count is_send (calls start)
        \/ count is_send (calls w') = S (count is_send (calls start))).
Proof.
  eassert (H : final (@reply_to_email test_node
                        (mailbox_after 0 [untitled_message]) "Thanks!"
                        (polling 5 12) start) = Some _)
    by (vm_compute; reflexivity).
  eexists. split; [exact H|].
  exact (proj1 (@reply_sends_only_to_a_usable_target test_node
                  (mailbox_after 0 [untitled_message]) "Thanks!"
                  (polling 5 12) start _ H)).
Defined.

(** ** The encoded reply *)

Lemma url_digit_table n :
  (n < 64)%nat -> url_alphabet (url_char (Base64.digit n)) = true.
Proof.
  intros Hn.
  assert (H : forallb (fun n => url_alphabet (url_char (Base64.digit n)))
                (seq 0 64) = true) by (vm_compute; reflexivity).
  rewrite forallb_forall in H. apply H, in_seq. lia.
Qed.

Lemma encode_body_length s :
  exists body k,
    Base64.encode s = (body ++ Base64.padding k)%string
    /\ all_chars sextet body = true
    /\ String.length body = ((4 * String.length s + 2) / 3)%nat.
Proof.
  induction s as [ | a | a b | a b c r IH] using by_triples.
  - exists EmptyString, 0%nat. repeat split; auto.
  - pose proof (nat_of_ascii_bound a). cbn [Base64.encode].
    eexists (String _ (String _ EmptyString)), 2%nat.
    split; [reflexivity|]. cbn [all_chars].
    rewrite !digit_sextet by lia. repeat split; auto.
  - pose proof (nat_of_ascii_bound a). pose proof (nat_of_ascii_bound b).
    cbn [Base64.encode].
    eexists (String _ (String _ (String _ EmptyString))), 1%nat.
    split; [reflexivity|]. cbn [all_chars].
    rewrite !digit_sextet by lia. repeat split; auto.
  - pose proof (nat_of_ascii_bound a). pose proof (nat_of_ascii_bound b).
    pose proof (nat_of_ascii_bound c).
    destruct IH as (body & k & E & Hall & Hlen).
    change (Base64.encode (String a (String b (String c r))))
      with (String (Base64.digit (nat_of_ascii a / 4))
              (String (Base64.digit (nat_of_ascii a mod 4 * 16
                                     + nat_of_ascii b / 16))
                 (String (Base64.digit (nat_of_ascii b mod 16 * 4
                                        + nat_of_ascii c / 64))
                    (String (Base64.digit (nat_of_ascii c mod 64))
                       (Base64.encode r))))).
    rewrite E.
    eexists (String _ (String _ (String _ (String _ body)))), k.
    split; [reflexivity|]. cbn [all_chars String.length].
    rewrite !digit_sextet by lia. rewrite Hall. split; [reflexivity|].
    rewrite Hlen. lia.
Qed.

(** X15. The raw message of a reply is made of letters, digits, [-] and
    [_] only, is four characters long for every three bytes of the reply
    (rounded up, without padding), and two different replies never have the
    same raw message. *)
Theorem encoded_reply_shape (replyMessage : string) :
  all_chars url_alphabet (encode_message replyMessage) = true
  /\ String.length (encode_message replyMessage)
     = ((4 * String.length replyMessage + 2) / 3)%nat
  /\ (forall other,
        encode_message replyMessage = encode_message other ->
        replyMessage = other).
Proof.
  destruct (encode_body_length replyMessage) as (body & k & E & Hall & Hlen).
  rewrite (encode_message_body _ _ _ E Hall). split; [|split].
  - rewrite all_chars_map. revert Hall. apply all_chars_impl. intros c Hc.
    destruct (sextet_digit c Hc) as (n & Hn & ->). now apply url_digit_table.
  - now rewrite map_chars_length.
  - intros other Heq.
    rewrite <- (encode_message_body _ _ _ E Hall) in Heq.
    pose proof (decode_url_encode_message replyMessage) as H1.
    rewrite Heq, decode_url_encode_message in H1. congruence.
Qed.

(** ** [_init_query], again *)

Lemma init_query_join o :
  _init_query o = String.concat " " (query_clauses o).
Proof.
  rewrite init_query_accumulates.
  destruct (query_clauses o) as [|c cs] eqn:Hcs; [reflexivity|].
  rewrite with_trailing_spaces_concat by discriminate.
  apply trim_tight, tight_concat; [discriminate|].
  rewrite <- Hcs. apply query_clauses_tight.
Qed.

(** X16. The query is empty, and so matches every message of the label,
    exactly when no filter is given: [to], [from] and [subject] are absent or
    empty and there is no [after] and no [before] date. *)
Theorem query_empty_iff_no_filter (o : Options) :
  _init_query o = EmptyString
  <-> (Js.truthy (to o) = false /\ Js.truthy (from o) = false
       /\ Js.truthy (subject o) = false
       /\ after o = None /\ before o = None).
Proof.
  rewrite init_query_join.
  assert (Hclauses : query_clauses o = []
                     <-> (Js.truthy (to o) = false
                          /\ Js.truthy (from o) = false
                          /\ Js.truthy (subject o) = false
                          /\ after o = None /\ before o = None)).
  { unfold query_clauses, clause_of, nonempty, always, Js.truthy.
    destruct (to o) as [t|], (from o) as [f|], (subject o) as [s|],
             (after o) as [a|], (before o) as [b|];
      repeat match goal with
             | |- context [(?x =? EmptyString)%string] =>
                 destruct (x =? EmptyString)%string
             end;
      cbn [negb app]; split;
      try discriminate; try tauto;
      intros (? & ? & ? & ? & ?); discriminate. }
  rewrite <- Hclauses. split.
  - intros Hempty. destruct (query_clauses o) as [|c cs] eqn:Hcs;
      [reflexivity | exfalso].
    assert (Ht : tight (String.concat " " (c :: cs))).
    { apply tight_concat; [discriminate|].
      rewrite <- Hcs. apply query_clauses_tight. }
    rewrite Hempty in Ht. destruct Ht as [(x & Hx & _) _]. discriminate.
  - now intros ->.
Qed.

(** ** [refresh_access_token] *)

Section RefreshProperties.
Context {gmail : Gmail} {oauth : OAuth2}.

(** X17. A refresh that answers with tokens stores the old token with each
    of [access_token], [refresh_token] and [expiry_date] replaced by the new
    value when the answer carries one (non-empty, non-zero) and kept
    otherwise: a renewed value always wins, a value that the answer leaves
    out is never lost, the other properties of the token are untouched, and
    refreshing again with the same answer changes nothing. A refresh whose
    answer is missing or has no tokens throws and stores nothing. *)
Theorem refresh_keeps_what_is_not_renewed (stored : Token.t) (w : World) :
  authorize (calls w) = None ->
  (forall tokens,
     refreshToken (CallAuthorize :: calls w)
     = inr (Some (mkRefreshResult (Some tokens))) ->
     exists new_token,
       refresh_access_token stored w
       = Return new_token (record CallAuthorize w)
       /\ Token.access_token new_token
          = (if Js.truthy (Token.access_token tokens)
             then Token.access_token tokens else Token.access_token stored)
       /\ Token.refresh_token new_token
          = (if Js.truthy (Token.refresh_token tokens)
             then Token.refresh_token tokens else Token.refresh_token stored)
       /\ Token.expiry_date new_token
          = (if truthy_number (Token.expiry_date tokens)
             then Token.expiry_date tokens else Token.expiry_date stored)
       /\ (Js.truthy (Token.access_token stored) = true ->
           Js.truthy (Token.access_token new_token) = true)
       /\ (Js.truthy (Token.refresh_token stored) = true ->
           Js.truthy (Token.refresh_token new_token) = true)
       /\ (truthy_number (Token.expiry_date stored) = true ->
           truthy_number (Token.expiry_date new_token) = true)
       /\ Token.scope new_token = Token.scope stored
       /\ Token.token_type new_token = Token.token_type stored
       /\ refresh_access_token new_token w
          = Return new_token (record CallAuthorize w))
  /\ (forall answer,
        refreshToken (CallAuthorize :: calls w) = inr answer ->
        answer = None \/ answer = Some (mkRefreshResult None) ->
        refresh_access_token stored w
        = Throw (JsError ("Refresh access token failed! Respose: "
                          ++ stringify answer)%string)
            (record CallAuthorize w)).
Proof.
  intros Hauth. split.
  - intros tokens Hrefresh.
    assert (Hrun : forall t,
               refresh_access_token t w
               = Return
                   (Token.mk
                      (if Js.truthy (Token.access_token tokens)
                       then Token.access_token tokens
                       else Token.access_token t)
                      (if Js.truthy (Token.refresh_token tokens)
                       then Token.refresh_token tokens
                       else Token.refresh_token t)
                      (if truthy_number (Token.expiry_date tokens)
                       then Token.expiry_date tokens
                       else Token.expiry_date t)
                      (Token.scope t) (Token.token_type t))
                   (record CallAuthorize w)).
    { intros t. unfold refresh_access_token, bind, call_authorize.
      rewrite Hauth. cbn [record calls]. rewrite Hrefresh. unfold ret.
      f_equal. destruct t as [a r e s ty].
      destruct (Js.truthy (Token.access_token tokens)),
               (Js.truthy (Token.refresh_token tokens)),
               (truthy_number (Token.expiry_date tokens)); reflexivity. }
    eexists. split; [apply Hrun|]. cbn.
    repeat split.
    + destruct (Js.truthy (Token.access_token tokens)) eqn:E; auto.
    + destruct (Js.truthy (Token.refresh_token tokens)) eqn:E; auto.
    + destruct (truthy_number (Token.expiry_date tokens)) eqn:E; auto.
    + rewrite Hrun. cbn. f_equal. f_equal.
      * destruct (Js.truthy (Token.access_token tokens)); reflexivity.
      * destruct (Js.truthy (Token.refresh_token tokens)); reflexivity.
      * destruct (truthy_number (Token.expiry_date tokens)); reflexivity.
  - intros answer Hrefresh Hnone.
    unfold refresh_access_token, bind, call_authorize.
    rewrite Hauth. cbn [record calls]. rewrite Hrefresh.
    destruct Hnone as [-> | ->]; reflexivity.
Qed.

End RefreshProperties.

Lemma refresh_keeps_what_is_not_renewed_witness :
  exists new_token,
    @refresh_access_token (mailbox_after 0 []) renewing_oauth stored_token
      start
    = Return new_token (record CallAuthorize start)
    /\ Token.access_token new_token = Some "access-2"%string
    /\ Token.refresh_token new_token = Some "refresh-1"%string.
Proof.
  destruct (proj1 (@refresh_keeps_what_is_not_renewed (mailbox_after 0 [])
                     renewing_oauth stored_token start eq_refl)
              _ eq_refl)
    as (new_token & Hrun & Ha & Hr & _).
  exists new_token. split; [exact Hrun|]. split; [exact Ha | exact Hr].
Defined.

(** ** An interval that is not below the maximum *)

Section SingleSearch.
Context {node : Node} {gmail : Gmail}.

(** X18. When the interval is at least the maximum, as with the defaults
    of [check_inbox] (30 and 30), the first empty batch already uses up the
    budget: the call ends in its first iteration, whatever the mailbox
    holds, and never sleeps. *)
Theorem poller_never_waits_when_interval_covers_maximum
    (options : Options) (wt mx : Z) (fuel : nat) (w : World) :
  wait_time_sec options = Some wt ->
  max_wait_time_sec options = Some mx ->
  mx <= wt ->
  __check_inbox (S fuel) options w = __check_inbox 1 options w
  /\ (exists w',
        final (__check_inbox 1 options w) = Some w'
        /\ sleeps (calls w') = sleeps (calls w))
  /\ check_inbox (S fuel) Omitted w = check_inbox 1 Omitted w.
Proof.
  intros Hwt Hmx Hle.
  assert (Hone : forall o a b,
             wait_time_sec o = Some a -> max_wait_time_sec o = Some b ->
             b <= a ->
             forall n v, poll (S n) o (Fin 0) v = poll 1 o (Fin 0) v).
  { intros o a b Ha Hb Hab n v. rewrite !poll_step.
    destruct (_get_recent_email o v) as [[|e es] v1| | |]; try reflexivity.
    rewrite Ha, Hb. cbn [to_number num_add].
    now rewrite (proj2 (num_ge_fin (0 + a) b)) by lia. }
  split; [|split].
  - rewrite !check_inbox_poll. now rewrite (Hone _ _ _ Hwt Hmx Hle).
  - rewrite check_inbox_poll, poll_step. unfold entered.
    rewrite lookup_logged.
    pose proof (lookup_sleeps options w) as Hquiet.
    destruct (_get_recent_email options w) as [[|e es] w1|e w1| |];
      try contradiction; cbn [on_console].
    + rewrite Hwt, Hmx. cbn [to_number num_add].
      rewrite (proj2 (num_ge_fin (0 + wt) mx)) by lia.
      eexists. split; [reflexivity | exact Hquiet].
    + eexists. split; [reflexivity | exact Hquiet].
    + eexists. split; [reflexivity | exact Hquiet].
  - cbn [check_inbox]. rewrite !check_inbox_poll.
    now rewrite (Hone check_inbox_default 30 30 eq_refl eq_refl) by lia.
Qed.

End SingleSearch.

Lemma poller_never_waits_when_interval_covers_maximum_witness :
  @__check_inbox test_node empty_mailbox 50 (polling 30 30) start
  = @__check_inbox test_node empty_mailbox 1 (polling 30 30) start.
Proof.
  refine (proj1 (@poller_never_waits_when_interval_covers_maximum test_node
                   empty_mailbox (polling 30 30) 30 30 49 start
                   eq_refl eq_refl _)).
  lia.
Defined.
